(** * tinyargs: the option registry and its linear-scan parser

    A shallow embedding of [src/tinyargs.c] (with the types of
    [include/tinyargs.h]) and the properties of its parser and lookups.

    Conventions of the embedding:
    - a [const char *] is an [option string]: [None] is the null pointer,
      [Some s] a pointer to the text [s]; [strcmp (a, b) == 0] is
      [String.eqb a b];
    - the array [parser->args] with its length [parser->count] is a list,
      and an assignment through [arg_t *arg = &parser->args[j]] rewrites
      entry [j] of that list in place;
    - [argv] is the list of its [argc] strings, so [argc] is [length argv];
    - the text sent to standard output by [printf] is kept as a list of
      structured diagnostics, one per line printed. *)

From Stdlib Require Import String ZArith Lia.
From stdpp Require Import base option list strings.

(** ** Data model ([tinyargs.h]) *)

Inductive arg_type_t : Set :=
| ARG_TYPE_FLAG
| ARG_TYPE_VALUE.

Definition arg_type_eqb (a b : arg_type_t) : bool :=
  match a, b with
  | ARG_TYPE_FLAG, ARG_TYPE_FLAG => true
  | ARG_TYPE_VALUE, ARG_TYPE_VALUE => true
  | _, _ => false
  end.

Record arg_t : Set := mk_arg {
  short_name : option string;
  long_name : option string;
  type : arg_type_t;
  required : bool;
  set : bool;
  value : option string;
  description : option string
}.

Record arg_parser_t : Set := mk_parser {
  args : list arg_t
}.

Definition count (parser : arg_parser_t) : nat := length (args parser).

(** [arg->set = true] *)
Definition assign_set (arg : arg_t) : arg_t :=
  {| short_name := short_name arg; long_name := long_name arg;
     type := type arg; required := required arg;
     set := true; value := value arg; description := description arg |}.

(** [arg->value = v] *)
Definition assign_value (arg : arg_t) (v : string) : arg_t :=
  {| short_name := short_name arg; long_name := long_name arg;
     type := type arg; required := required arg;
     set := set arg; value := Some v; description := description arg |}.

(** ** Construction *)

Definition arg_parser_create : arg_parser_t := {| args := [] |}.

Definition arg_parser_add (parser : arg_parser_t)
    (short long : option string) (ty : arg_type_t) (req : bool)
    (descr : option string) : arg_parser_t :=
  {| args := args parser ++
       [ {| short_name := short; long_name := long; type := ty;
            required := req; set := false; value := None;
            description := descr |} ] |}.

(** ** Name comparison

    [ptr && strcmp (ptr, s) == 0]: the guard makes a null name match
    nothing. *)
Definition guarded_eq (ptr : option string) (s : string) : bool :=
  match ptr with
  | Some n => String.eqb n s
  | None => false
  end.

(** The condition shared by the parser and the three lookups:
    [(short_name && strcmp ...) || (long_name && strcmp ...)]. *)
Definition name_matches (arg : arg_t) (s : string) : bool :=
  guarded_eq (short_name arg) s || guarded_eq (long_name arg) s.

(** ** Diagnostics

    The three [printf] calls of [arg_parser_parse].  The argument of the
    last one is the [long_name] pointer itself, null or not. *)
Inductive diagnostic : Set :=
| MissingValue (token : string)
| UnrecognizedArgument (token : string)
| MissingRequiredArgument (name : option string).

(** The line printed, where the C standard defines it: [%s] needs a
    string, so a null [name] has no defined rendering. *)
Definition printed_line (d : diagnostic) : option string :=
  match d with
  | MissingValue tok =>
      Some ("Error: Missing value for argument " +:+ tok)
  | UnrecognizedArgument tok =>
      Some ("Error: Unrecognized argument " +:+ tok)
  | MissingRequiredArgument (Some n) =>
      Some ("Error: Missing required argument " +:+ n)
  | MissingRequiredArgument None => None
  end.

(** ** Parsing *)

(** [argv[i]]; only read at indices below [argc]. *)
Definition argv_at (argv : list string) (i : nat) : string :=
  default EmptyString (argv !! i).

(** How the inner [for (j ...)] loop is left. *)
Inductive scan_result : Set :=
| NotRecognized
    (* j reached count with recognized == false *)
| Recognized (args' : list arg_t) (i' : nat)
    (* break; i' is i after the possible ++i *)
| Returned0 (args' : list arg_t) (d : diagnostic).
    (* return 0 from inside the loop *)

Definition scan_cons (arg : arg_t) (r : scan_result) : scan_result :=
  match r with
  | NotRecognized => NotRecognized
  | Recognized l i' => Recognized (arg :: l) i'
  | Returned0 l d => Returned0 (arg :: l) d
  end.

(** The inner loop over the entries from position [j] on, the list being
    [args[j..count-1]]. *)
Fixpoint scan_entries (argv : list string) (i : nat) (l : list arg_t)
    : scan_result :=
  match l with
  | [] => NotRecognized
  | arg :: rest =>
      if name_matches arg (argv_at argv i) then
        let arg1 := assign_set arg in
        if arg_type_eqb (type arg1) ARG_TYPE_VALUE then
          if S i <? length argv then
            Recognized (assign_value arg1 (argv_at argv (S i)) :: rest) (S i)
          else if required arg1 then
            Returned0 (arg1 :: rest) (MissingValue (argv_at argv i))
          else Recognized (arg1 :: rest) i
        else Recognized (arg1 :: rest) i
      else scan_cons arg (scan_entries argv i rest)
  end.

(** One iteration of the outer [for (i ...)] loop, its [i++] included. *)
Inductive iter_result : Set :=
| Continue (i' : nat) (args' : list arg_t)
| Stop (d : diagnostic) (args' : list arg_t).

Definition loop_body (argv : list string) (i : nat) (l : list arg_t)
    : iter_result :=
  match scan_entries argv i l with
  | NotRecognized => Stop (UnrecognizedArgument (argv_at argv i)) l
  | Returned0 l' d => Stop d l'
  | Recognized l' i' => Continue (S i') l'
  end.

(** How the outer loop is left. *)
Inductive loop_result : Set :=
| LoopDone (args' : list arg_t)
| LoopReturned0 (d : diagnostic) (args' : list arg_t).

(** The outer loop from index [i].  [fuel] bounds the number of
    iterations; [None] means it ran out (it never does from
    [arg_parser_parse], see [arg_parser_parse_total]). *)
Fixpoint token_loop (fuel : nat) (argv : list string) (i : nat)
    (l : list arg_t) : option loop_result :=
  if i <? length argv then
    match fuel with
    | O => None
    | S fuel' =>
        match loop_body argv i l with
        | Stop d l' => Some (LoopReturned0 d l')
        | Continue i' l' => token_loop fuel' argv i' l'
        end
    end
  else Some (LoopDone l).

(** The second loop: the first entry that is required and not set. *)
Fixpoint required_check (l : list arg_t) : option diagnostic :=
  match l with
  | [] => None
  | arg :: rest =>
      if required arg && negb (set arg)
      then Some (MissingRequiredArgument (long_name arg))
      else required_check rest
  end.

(** What a call leaves behind: the [int] returned, the lines printed and
    the registry as mutated. *)
Record parse_outcome : Set := mk_outcome {
  retval : Z;
  stdout : list diagnostic;
  final : arg_parser_t
}.

(** Everything after the outer loop. *)
Definition check_required (l : list arg_t) : parse_outcome :=
  match required_check l with
  | Some d => {| retval := 0; stdout := [d]; final := {| args := l |} |}
  | None => {| retval := 1; stdout := []; final := {| args := l |} |}
  end.

Definition finish (r : loop_result) : parse_outcome :=
  match r with
  | LoopReturned0 d l =>
      {| retval := 0; stdout := [d]; final := {| args := l |} |}
  | LoopDone l => check_required l
  end.

(** The call as it continues from the head of the iteration at index [i]
    with registry [l]. *)
Definition parse_from (argv : list string) (i : nat) (l : list arg_t)
    : option parse_outcome :=
  finish <$> token_loop (length argv - i) argv i l.

Definition arg_parser_parse (parser : arg_parser_t) (argv : list string)
    : option parse_outcome :=
  parse_from argv 1 (args parser).

(** ** Lookups *)

Fixpoint get_value_in (l : list arg_t) (name : string) : option string :=
  match l with
  | [] => None
  | arg :: rest =>
      if name_matches arg name then value arg else get_value_in rest name
  end.

Definition arg_parser_get_value (parser : arg_parser_t) (name : string)
    : option string :=
  get_value_in (args parser) name.

Fixpoint is_flag_set_in (l : list arg_t) (name : string) : bool :=
  match l with
  | [] => false
  | arg :: rest =>
      if name_matches arg name then set arg else is_flag_set_in rest name
  end.

Definition arg_parser_is_flag_set (parser : arg_parser_t) (name : string)
    : bool :=
  is_flag_set_in (args parser) name.

Fixpoint has_in (l : list arg_t) (name : string) : bool :=
  match l with
  | [] => false
  | arg :: rest =>
      if name_matches arg name then
        if arg_type_eqb (type arg) ARG_TYPE_FLAG then set arg
        else if arg_type_eqb (type arg) ARG_TYPE_VALUE then
          bool_decide (value arg ≠ None)
        else has_in rest name
      else has_in rest name
  end.

Definition arg_parser_has (parser : arg_parser_t) (name : string) : bool :=
  has_in (args parser) name.

(** ** Vocabulary of the properties *)

(** The first entry of [l] that [name] matches, with its index: the entry
    at which each of the four loops over the registry stops. *)
Fixpoint find_arg (l : list arg_t) (name : string) : option (nat * arg_t) :=
  match l with
  | [] => None
  | arg :: rest =>
      if name_matches arg name then Some (O, arg)
      else prod_map S id <$> find_arg rest name
  end.

(** The same, spelled out on indices. *)
Definition first_match (l : list arg_t) (name : string) (j : nat)
    (arg : arg_t) : Prop :=
  l !! j = Some arg ∧ name_matches arg name = true ∧
  ∀ k b, k < j → l !! k = Some b → name_matches b name = false.

(** [scan_reaches argv i l k m]: the outer loop, entered at index [i] with
    registry [l], arrives at the head of an iteration with index [k] and
    registry [m], every iteration in between having ended in its [i++]. *)
Inductive scan_reaches (argv : list string)
    : nat → list arg_t → nat → list arg_t → Prop :=
| reaches_here i l : scan_reaches argv i l i l
| reaches_next i l i' l' k m :
    i < length argv →
    loop_body argv i l = Continue i' l' →
    scan_reaches argv i' l' k m →
    scan_reaches argv i l k m.

(** One more iteration of the loop, on concrete data. *)
Ltac reach_step :=
  eapply reaches_next; [simpl; lia | reflexivity | ].

(** What [arg_parser_has] answers at the entry it stops at. *)
Definition has_entry (arg : arg_t) : bool :=
  match type arg with
  | ARG_TYPE_FLAG => set arg
  | ARG_TYPE_VALUE => bool_decide (value arg ≠ None)
  end.

(** The invariant of the data model: a value is only held by a
    value-kind entry that is set. *)
Definition value_invariant (l : list arg_t) : Prop :=
  ∀ arg, arg ∈ l → value arg ≠ None →
    type arg = ARG_TYPE_VALUE ∧ set arg = true.

(** Registries obtained from [arg_parser_create] by calls of
    [arg_parser_add] and [arg_parser_parse]. *)
Inductive reachable : arg_parser_t → Prop :=
| reachable_create : reachable arg_parser_create
| reachable_add parser short long ty req descr :
    reachable parser →
    reachable (arg_parser_add parser short long ty req descr)
| reachable_parse parser argv o :
    reachable parser →
    arg_parser_parse parser argv = Some o →
    reachable (final o).

(** The test of the second loop of [arg_parser_parse]:
    [required && !set]. *)
Definition missing (arg : arg_t) : bool := required arg && negb (set arg).

(** An entry neither of whose names is given. *)
Definition nameless (arg : arg_t) : Prop :=
  short_name arg = None ∧ long_name arg = None.

(** [l] with [e] put in front of position [n]. *)
Definition insert_entry (n : nat) (e : arg_t) (l : list arg_t) : list arg_t :=
  take n l ++ e :: drop n l.

(** The two names of an entry, the part of it that parsing never
    writes. *)
Definition entry_names (arg : arg_t) : option string * option string :=
  (short_name arg, long_name arg).

(** The entries of the examples, as [arg_parser_add] stores them. *)
Definition help_entry : arg_t :=
  {| short_name := Some "-h"; long_name := Some "--help";
     type := ARG_TYPE_FLAG; required := false; set := false;
     value := None; description := Some "Show help" |}.

Definition name_entry : arg_t :=
  {| short_name := Some "-n"; long_name := Some "--name";
     type := ARG_TYPE_VALUE; required := true; set := false;
     value := None; description := Some "Name" |}.

Definition out_entry : arg_t :=
  {| short_name := Some "-o"; long_name := Some "--out";
     type := ARG_TYPE_VALUE; required := false; set := false;
     value := None; description := Some "Output" |}.

(** A second entry under the long name of [name_entry]. *)
Definition name_again : arg_t :=
  {| short_name := None; long_name := Some "--name";
     type := ARG_TYPE_FLAG; required := false; set := true;
     value := None; description := Some "Shadowed" |}.

(** An entry with no name at all. *)
Definition anonymous_entry : arg_t :=
  {| short_name := None; long_name := None;
     type := ARG_TYPE_FLAG; required := false; set := false;
     value := None; description := Some "No name" |}.

(** The registry of the examples: [-h/--help], a flag, and [-n/--name],
    a required value. *)
Definition demo_parser : arg_parser_t :=
  arg_parser_add
    (arg_parser_add arg_parser_create
       (Some "-h") (Some "--help") ARG_TYPE_FLAG false (Some "Show help"))
    (Some "-n") (Some "--name") ARG_TYPE_VALUE true (Some "Name").

(** The same with an optional [-o/--out] value in place of [-n/--name]. *)
Definition demo_optional : arg_parser_t :=
  arg_parser_add
    (arg_parser_add arg_parser_create
       (Some "-h") (Some "--help") ARG_TYPE_FLAG false (Some "Show help"))
    (Some "-o") (Some "--out") ARG_TYPE_VALUE false (Some "Output").

(** A flag declared under the long name [--name] only, and after it a
    required value [-n/--name]: the long name resolves to the flag, the
    short name to the value. *)
Definition long_name_taken : arg_parser_t :=
  arg_parser_add
    (arg_parser_add arg_parser_create
       None (Some "--name") ARG_TYPE_FLAG false (Some "Taken"))
    (Some "-n") (Some "--name") ARG_TYPE_VALUE true (Some "Name").

(** A required value that has a short name only. *)
Definition short_only_parser : arg_parser_t :=
  arg_parser_add arg_parser_create
    (Some "-n") None ARG_TYPE_VALUE true (Some "Name").

(** A change [f] of the registry carried through the results of the
    loops: used to compare two runs on registries that differ by [f]. *)
Definition scan_map (f : list arg_t → list arg_t) (r : scan_result)
    : scan_result :=
  match r with
  | NotRecognized => NotRecognized
  | Recognized l i' => Recognized (f l) i'
  | Returned0 l d => Returned0 (f l) d
  end.

Definition iter_map (f : list arg_t → list arg_t) (r : iter_result)
    : iter_result :=
  match r with
  | Continue i' l => Continue i' (f l)
  | Stop d l => Stop d (f l)
  end.

Definition loop_map (f : list arg_t → list arg_t) (r : loop_result)
    : loop_result :=
  match r with
  | LoopDone l => LoopDone (f l)
  | LoopReturned0 d l => LoopReturned0 d (f l)
  end.

(** ** Help ([arg_parser_print_help])

    One [printf] call per element: the header, then for each entry the
    line of the branch taken.  The two single-name branches use the same
    format string.  [descr] is the [description] pointer as passed to
    [%s]. *)
Inductive help_output : Set :=
| UsageHeader
| HelpBoth (short long : string) (descr : option string) (type_str : string)
| HelpOne (name : string) (descr : option string) (type_str : string).

(** [(arg->type == ARG_TYPE_FLAG) ? "Flag" : "Key=Value"] *)
Definition type_str (arg : arg_t) : string :=
  if arg_type_eqb (type arg) ARG_TYPE_FLAG then "Flag" else "Key=Value".

(** The body of the loop of [arg_parser_print_help]: an entry with
    neither name falls through the three branches and prints nothing. *)
Definition help_line (arg : arg_t) : option help_output :=
  match short_name arg, long_name arg with
  | Some s, Some l => Some (HelpBoth s l (description arg) (type_str arg))
  | Some s, None => Some (HelpOne s (description arg) (type_str arg))
  | None, Some l => Some (HelpOne l (description arg) (type_str arg))
  | None, None => None
  end.

Fixpoint help_lines (l : list arg_t) : list help_output :=
  match l with
  | [] => []
  | arg :: rest =>
      match help_line arg with
      | Some h => h :: help_lines rest
      | None => help_lines rest
      end
  end.

Definition arg_parser_print_help (parser : arg_parser_t) : list help_output :=
  UsageHeader :: help_lines (args parser).

(** The text of a line, without its newline, where the C standard
    defines it ([%s] of a null [description] has no defined text). *)
Definition help_text (h : help_output) : option string :=
  match h with
  | UsageHeader => Some "Usage:"
  | HelpBoth s l (Some d) t =>
      Some ("  " +:+ s +:+ ", " +:+ l +:+ ": " +:+ d
              +:+ " (Type: " +:+ t +:+ ")")
  | HelpOne n (Some d) t =>
      Some ("  " +:+ n +:+ ":     " +:+ d +:+ " (Type: " +:+ t +:+ ")")
  | HelpBoth _ _ None _ | HelpOne _ None _ => None
  end.

(** ** Vocabulary of the further properties *)

(** What [arg_parser_add] stores and nothing writes afterwards. *)
Definition declaration (arg : arg_t)
    : option string * option string * arg_type_t * bool * option string :=
  (short_name arg, long_name arg, type arg, required arg, description arg).

(** [b] is [a] after some parsing: declared alike, still set if [a] was,
    still holding a value if [a] did. *)
Definition entry_extends (a b : arg_t) : Prop :=
  declaration a = declaration b ∧
  (set a = true → set b = true) ∧
  (value a ≠ None → value b ≠ None).

Definition registry_extends (l m : list arg_t) : Prop :=
  Forall2 entry_extends l m.

(** Every entry that is set, of value kind and required holds a value. *)
Definition required_values_held (l : list arg_t) : Prop :=
  ∀ arg, arg ∈ l → set arg = true → type arg = ARG_TYPE_VALUE →
    required arg = true → value arg ≠ None.

(** No token can resolve to the entry at index [k] through the name
    [ptr]: the name is null, or an entry before [k] matches it first. *)
Definition name_shadowed (l : list arg_t) (k : nat) (ptr : option string)
    : bool :=
  match ptr with
  | None => true
  | Some s =>
      match find_arg l s with
      | Some (j, _) => j <? k
      | None => false
      end
  end.

Definition shadowed (l : list arg_t) (k : nat) (e : arg_t) : bool :=
  name_shadowed l k (short_name e) && name_shadowed l k (long_name e).

(** Two runs of the loops that went the same way, their registries
    related by [Q]. *)
Definition scan_related (Q : list arg_t → list arg_t → Prop)
    (r r' : scan_result) : Prop :=
  match r, r' with
  | NotRecognized, NotRecognized => True
  | Recognized l i, Recognized l' i' => i = i' ∧ Q l l'
  | Returned0 l d, Returned0 l' d' => d = d' ∧ Q l l'
  | _, _ => False
  end.

Definition iter_related (Q : list arg_t → list arg_t → Prop)
    (r r' : iter_result) : Prop :=
  match r, r' with
  | Continue i l, Continue i' l' => i = i' ∧ Q l l'
  | Stop d l, Stop d' l' => d = d' ∧ Q l l'
  | _, _ => False
  end.

Definition loop_related (Q : list arg_t → list arg_t → Prop)
    (r r' : option loop_result) : Prop :=
  match r, r' with
  | None, None => True
  | Some (LoopDone l), Some (LoopDone l') => Q l l'
  | Some (LoopReturned0 d l), Some (LoopReturned0 d' l') => d = d' ∧ Q l l'
  | _, _ => False
  end.

(** The relation kept between a first run (at [a]), a second run started
    from the registry [c] the first one ends in (at [b]), and [c]. *)
Definition entry_between (a b c : arg_t) : Prop :=
  declaration a = declaration b ∧ declaration a = declaration c ∧
  (set b = set a ∨ set b = set c) ∧
  (value b = value a ∨ value b = value c).

(** ** Names *)

Section Names.
Implicit Types (arg : arg_t) (s : string) (l : list arg_t).

Lemma guarded_eq_true ptr s : guarded_eq ptr s = true ↔ ptr = Some s.
Proof.
  destruct ptr as [n|]; simpl.
  - rewrite String.eqb_eq. split; congruence.
  - split; discriminate.
Qed.

Lemma name_matches_true arg s :
  name_matches arg s = true ↔
  short_name arg = Some s ∨ long_name arg = Some s.
Proof.
  unfold name_matches.
  rewrite orb_true_iff, !guarded_eq_true. tauto.
Qed.

Lemma nameless_no_match arg s : nameless arg → name_matches arg s = false.
Proof. intros [Hs Hl]. unfold name_matches. by rewrite Hs, Hl. Qed.

Lemma name_matches_assign_set arg s :
  name_matches (assign_set arg) s = name_matches arg s.
Proof. reflexivity. Qed.

Lemma name_matches_assign_value arg v s :
  name_matches (assign_value arg v) s = name_matches arg s.
Proof. reflexivity. Qed.

Lemma find_arg_first_match l s j arg :
  find_arg l s = Some (j, arg) ↔ first_match l s j arg.
Proof.
  unfold first_match. revert j.
  induction l as [|b l IH]; intros j; simpl.
  - split; [discriminate | by intros [? _]].
  - destruct (name_matches b s) eqn:Hb.
    + split.
      * intros [= <- <-]. repeat split; [done | intros; lia].
      * intros (Hj & Harg & Hmin).
        destruct j as [|j]; [by simplify_eq/= |].
        specialize (Hmin O b). rewrite Hb in Hmin.
        discriminate Hmin; [lia | done].
    + destruct j as [|j]; simpl.
      * split.
        -- destruct (find_arg l s) as [[??]|]; discriminate.
        -- intros ([= ->] & Harg & _). congruence.
      * split.
        -- destruct (find_arg l s) as [[j' b']|] eqn:Hf; [|discriminate].
           intros [= <- <-]. destruct (IH j') as [(? & ? & Hmin) _]; [done|].
           repeat split; [done..|].
           intros [|k] c Hk; simpl; [congruence|].
           apply Hmin. lia.
        -- intros (Hj & Harg & Hmin).
           rewrite (proj2 (IH j)); [done|].
           repeat split; [done..|].
           intros k c Hk Hc. apply (Hmin (S k) c); [lia | done].
Qed.

Lemma find_arg_None l s :
  find_arg l s = None ↔ ∀ b, b ∈ l → name_matches b s = false.
Proof.
  induction l as [|b l IH]; simpl.
  - split; [intros _ ? ?%elem_of_nil; done | done].
  - destruct (name_matches b s) eqn:Hb.
    + split; [discriminate|]. intros H.
      rewrite H in Hb; [discriminate | left].
    + rewrite fmap_None, IH. split.
      * intros H c [->|?]%elem_of_cons; auto.
      * intros H c ?. apply H. by right.
Qed.

Lemma find_arg_Some_lookup l s j arg :
  find_arg l s = Some (j, arg) → l !! j = Some arg.
Proof. by intros (? & _)%find_arg_first_match. Qed.

Lemma find_arg_Some_matches l s j arg :
  find_arg l s = Some (j, arg) → name_matches arg s = true.
Proof. by intros (_ & ? & _)%find_arg_first_match. Qed.

Lemma find_arg_app_cons pre e post s :
  find_arg pre s = None → name_matches e s = true →
  find_arg (pre ++ e :: post) s = Some (length pre, e).
Proof.
  induction pre as [|b pre IH]; simpl; intros Hpre He.
  - by rewrite He.
  - destruct (name_matches b s); [discriminate|].
    apply fmap_None in Hpre. by rewrite IH.
Qed.
End Names.

(** ** The inner loop *)

Section InnerLoop.
Implicit Types (argv : list string) (l : list arg_t).

(** The inner loop stops at the first entry the token matches and
    rewrites that entry alone. *)
Lemma scan_entries_find argv i l :
  scan_entries argv i l =
  match find_arg l (argv_at argv i) with
  | None => NotRecognized
  | Some (j, arg) =>
      match type arg with
      | ARG_TYPE_FLAG => Recognized (<[j := assign_set arg]> l) i
      | ARG_TYPE_VALUE =>
          if S i <? length argv then
            Recognized
              (<[j := assign_value (assign_set arg) (argv_at argv (S i))]> l)
              (S i)
          else if required arg then
            Returned0 (<[j := assign_set arg]> l)
              (MissingValue (argv_at argv i))
          else Recognized (<[j := assign_set arg]> l) i
      end
  end.
Proof.
  induction l as [|b l IH]; simpl; [done|].
  destruct (name_matches b (argv_at argv i)) eqn:Hb.
  - destruct (type b); simpl; [done|].
    by repeat case_match.
  - rewrite IH.
    destruct (find_arg l (argv_at argv i)) as [[j arg]|]; simpl; [|done].
    by repeat case_match.
Qed.

Lemma loop_body_unrecognized argv i l :
  find_arg l (argv_at argv i) = None →
  loop_body argv i l = Stop (UnrecognizedArgument (argv_at argv i)) l.
Proof. intros H. unfold loop_body. by rewrite scan_entries_find, H. Qed.

Lemma loop_body_flag argv i l j arg :
  find_arg l (argv_at argv i) = Some (j, arg) →
  type arg = ARG_TYPE_FLAG →
  loop_body argv i l = Continue (S i) (<[j := assign_set arg]> l).
Proof.
  intros H Ht. unfold loop_body. by rewrite scan_entries_find, H, Ht.
Qed.

Lemma loop_body_value argv i l j arg :
  find_arg l (argv_at argv i) = Some (j, arg) →
  type arg = ARG_TYPE_VALUE →
  S i < length argv →
  loop_body argv i l =
  Continue (S (S i))
    (<[j := assign_value (assign_set arg) (argv_at argv (S i))]> l).
Proof.
  intros H Ht Hi. unfold loop_body. rewrite scan_entries_find, H, Ht.
  by rewrite (proj2 (Nat.ltb_lt _ _) Hi).
Qed.

Lemma loop_body_value_last argv i l j arg :
  find_arg l (argv_at argv i) = Some (j, arg) →
  type arg = ARG_TYPE_VALUE →
  length argv ≤ S i →
  loop_body argv i l =
  if required arg
  then Stop (MissingValue (argv_at argv i)) (<[j := assign_set arg]> l)
  else Continue (S i) (<[j := assign_set arg]> l).
Proof.
  intros H Ht Hi. unfold loop_body. rewrite scan_entries_find, H, Ht.
  rewrite (proj2 (Nat.ltb_ge _ _) Hi). by destruct (required arg).
Qed.

(** Every way out of an iteration, read backwards. *)
Lemma loop_body_Continue_inv argv i l i' l' :
  loop_body argv i l = Continue i' l' →
  ∃ j arg, find_arg l (argv_at argv i) = Some (j, arg) ∧
    ((i' = S i ∧ l' = <[j := assign_set arg]> l) ∨
     (i' = S (S i) ∧ S i < length argv ∧ type arg = ARG_TYPE_VALUE ∧
      l' = <[j := assign_value (assign_set arg) (argv_at argv (S i))]> l)).
Proof.
  unfold loop_body. rewrite scan_entries_find.
  destruct (find_arg l (argv_at argv i)) as [[j arg]|]; [|discriminate].
  intros H. exists j, arg. split; [done|].
  destruct (type arg) eqn:Ht.
  - injection H as <- <-. by left.
  - destruct (S i <? length argv) eqn:Hi.
    + injection H as <- <-. right. by apply Nat.ltb_lt in Hi.
    + destruct (required arg); [discriminate|].
      injection H as <- <-. by left.
Qed.

Lemma loop_body_Stop_inv argv i l d l' :
  loop_body argv i l = Stop d l' →
  (find_arg l (argv_at argv i) = None ∧
   d = UnrecognizedArgument (argv_at argv i) ∧ l' = l) ∨
  (∃ j arg, find_arg l (argv_at argv i) = Some (j, arg) ∧
     type arg = ARG_TYPE_VALUE ∧ required arg = true ∧
     length argv ≤ S i ∧
     d = MissingValue (argv_at argv i) ∧ l' = <[j := assign_set arg]> l).
Proof.
  unfold loop_body. rewrite scan_entries_find.
  destruct (find_arg l (argv_at argv i)) as [[j arg]|].
  - intros H. right. exists j, arg. split; [done|].
    destruct (type arg); [discriminate|].
    destruct (S i <? length argv) eqn:Hi; [discriminate|].
    apply Nat.ltb_ge in Hi.
    destruct (required arg); [|discriminate].
    by injection H as <- <-.
  - intros [= <- <-]. by left.
Qed.

Lemma loop_body_advances argv i l i' l' :
  loop_body argv i l = Continue i' l' → i < i'.
Proof.
  intros (j & arg & _ & [[-> _]|[-> _]])%loop_body_Continue_inv; lia.
Qed.

Lemma loop_body_length argv i l i' l' :
  loop_body argv i l = Continue i' l' → length l' = length l.
Proof.
  intros (j & arg & _ & [[_ ->]|(_ & _ & _ & ->)])%loop_body_Continue_inv;
    by rewrite length_insert.
Qed.

(** An iteration looks at [argv[i]], at whether [argv[i+1]] exists, and
    at [argv[i+1]]; at nothing else of [argv]. *)
Lemma loop_body_ext argv argv' i l :
  argv_at argv i = argv_at argv' i →
  argv_at argv (S i) = argv_at argv' (S i) →
  (S i <? length argv) = (S i <? length argv') →
  loop_body argv i l = loop_body argv' i l.
Proof.
  intros H0 H1 Hlen. unfold loop_body.
  rewrite !scan_entries_find, H0, H1, Hlen. done.
Qed.
End InnerLoop.

(** ** The outer loop *)

Section OuterLoop.
Implicit Types (argv : list string) (l m : list arg_t).

(** With fuel for the tokens that are left the loop ends, and more fuel
    changes nothing. *)
Lemma token_loop_fuel fuel fuel' argv i l :
  length argv ≤ fuel + i → length argv ≤ fuel' + i →
  token_loop fuel argv i l = token_loop fuel' argv i l.
Proof.
  revert fuel' i l.
  induction fuel as [|fuel IH]; intros fuel' i l H H'.
  - destruct fuel'; simpl; by rewrite (proj2 (Nat.ltb_ge _ _)) by lia.
  - destruct fuel' as [|fuel']; simpl.
    + by rewrite (proj2 (Nat.ltb_ge _ _)) by lia.
    + destruct (i <? length argv); [|done].
      destruct (loop_body argv i l) as [i' l'|] eqn:Hb; [|done].
      apply loop_body_advances in Hb. apply IH; lia.
Qed.

Lemma token_loop_total fuel argv i l :
  length argv ≤ fuel + i → is_Some (token_loop fuel argv i l).
Proof.
  revert i l. induction fuel as [|fuel IH]; intros i l H; simpl.
  - by rewrite (proj2 (Nat.ltb_ge _ _)) by lia.
  - destruct (i <? length argv); [|done].
    destruct (loop_body argv i l) as [i' l'|] eqn:Hb; [|done].
    apply loop_body_advances in Hb. apply IH; lia.
Qed.

Lemma parse_from_total argv i l : is_Some (parse_from argv i l).
Proof.
  unfold parse_from. apply fmap_is_Some, token_loop_total. lia.
Qed.

Lemma parse_from_end argv i l :
  length argv ≤ i → parse_from argv i l = Some (check_required l).
Proof.
  intros H. unfold parse_from.
  replace (length argv - i) with O by lia. simpl.
  by rewrite (proj2 (Nat.ltb_ge _ _)) by lia.
Qed.

Lemma parse_from_Continue argv i l i' l' :
  i < length argv →
  loop_body argv i l = Continue i' l' →
  parse_from argv i l = parse_from argv i' l'.
Proof.
  intros Hi Hb. unfold parse_from.
  destruct (length argv - i) as [|fuel] eqn:Hf; [lia|]. simpl.
  rewrite (proj2 (Nat.ltb_lt _ _) Hi), Hb.
  apply loop_body_advances in Hb.
  f_equal. apply token_loop_fuel; lia.
Qed.

Lemma parse_from_Stop argv i l d l' :
  i < length argv →
  loop_body argv i l = Stop d l' →
  parse_from argv i l =
  Some {| retval := 0; stdout := [d]; final := {| args := l' |} |}.
Proof.
  intros Hi Hb. unfold parse_from.
  destruct (length argv - i) as [|fuel] eqn:Hf; [lia|]. simpl.
  by rewrite (proj2 (Nat.ltb_lt _ _) Hi), Hb.
Qed.

Lemma parse_from_reaches argv i l k m :
  scan_reaches argv i l k m →
  parse_from argv i l = parse_from argv k m.
Proof.
  induction 1 as [|i l i' l' k m Hi Hb _ IH]; [done|].
  by rewrite (parse_from_Continue _ _ _ _ _ Hi Hb).
Qed.

Lemma scan_reaches_le argv i l k m : scan_reaches argv i l k m → i ≤ k.
Proof.
  induction 1 as [|i l i' l' k m _ Hb%loop_body_advances _ IH]; lia.
Qed.

Lemma scan_reaches_length argv i l k m :
  scan_reaches argv i l k m → length m = length l.
Proof.
  induction 1 as [|i l i' l' k m _ Hb%loop_body_length _ IH]; congruence.
Qed.

Lemma scan_reaches_snoc argv i l k m k' m' :
  scan_reaches argv i l k m →
  k < length argv →
  loop_body argv k m = Continue k' m' →
  scan_reaches argv i l k' m'.
Proof.
  induction 1 as [|i l i' l' k m Hi Hb _ IH]; intros Hk Hb'.
  - eapply reaches_next; [done.. | apply reaches_here].
  - eapply reaches_next; [done.. | by apply IH].
Qed.

(** Arriving at index [k] has read no token beyond [argv[k]]. *)
Lemma scan_reaches_ext argv argv' i l k m :
  scan_reaches argv i l k m →
  k < length argv → k < length argv' →
  take (S k) argv' = take (S k) argv →
  scan_reaches argv' i l k m.
Proof.
  intros H Hk Hk' Heq.
  assert (Hat : ∀ n, n ≤ k → argv_at argv n = argv_at argv' n).
  { intros n Hn. unfold argv_at.
    rewrite <- (lookup_take_lt argv (S k) n) by lia.
    rewrite <- (lookup_take_lt argv' (S k) n) by lia.
    by rewrite Heq. }
  induction H as [|i l i' l' k m Hi Hb Hr IH]; [apply reaches_here|].
  pose proof (loop_body_advances _ _ _ _ _ Hb) as Hadv.
  pose proof (scan_reaches_le _ _ _ _ _ Hr) as Hle.
  eapply reaches_next; [lia | | by apply IH].
  rewrite <- Hb. symmetry. apply loop_body_ext.
  - apply Hat; lia.
  - apply Hat; lia.
  - rewrite (proj2 (Nat.ltb_lt (S i) (length argv))) by lia.
    by rewrite (proj2 (Nat.ltb_lt (S i) (length argv'))) by lia.
Qed.

(** From index 1 on the loop never reads [argv[0]]. *)
Lemma token_loop_program_name fuel a b toks i l :
  1 ≤ i →
  token_loop fuel (a :: toks) i l = token_loop fuel (b :: toks) i l.
Proof.
  revert i l. induction fuel as [|fuel IH]; intros i l Hi; simpl; [done|].
  destruct (i <? S (length toks)); [|done].
  rewrite (loop_body_ext (a :: toks) (b :: toks) i l);
    [| by destruct i as [|i]; [lia|] .. | done].
  destruct (loop_body (b :: toks) i l) as [i' l'|d l'] eqn:Hb; [|done].
  apply loop_body_advances in Hb. apply IH. lia.
Qed.

Lemma parse_from_program_name a b toks i l :
  1 ≤ i → parse_from (a :: toks) i l = parse_from (b :: toks) i l.
Proof.
  intros Hi. unfold parse_from. simpl.
  by rewrite (token_loop_program_name _ a b).
Qed.

(** A diagnostic [MissingValue] comes from the last token of [argv],
    met at the head of an iteration and resolved to a value-kind
    required entry. *)
Lemma token_loop_MissingValue_inv fuel argv i l tok l' :
  token_loop fuel argv i l = Some (LoopReturned0 (MissingValue tok) l') →
  ∃ k m j arg,
    scan_reaches argv i l k m ∧ S k = length argv ∧
    tok = argv_at argv k ∧
    find_arg m tok = Some (j, arg) ∧
    type arg = ARG_TYPE_VALUE ∧ required arg = true ∧
    l' = <[j := assign_set arg]> m.
Proof.
  revert i l. induction fuel as [|fuel IH]; intros i l; simpl.
  - destruct (i <? length argv); discriminate.
  - destruct (i <? length argv) eqn:Hi; [|discriminate].
    apply Nat.ltb_lt in Hi.
    destruct (loop_body argv i l) as [i' l1|d l1] eqn:Hb.
    + intros (k & m & j & arg & Hr & ?)%IH.
      exists k, m, j, arg. split; [|done].
      by eapply reaches_next.
    + intros [= -> ->].
      apply loop_body_Stop_inv in Hb
        as [(_ & [=] & _)|(j & arg & Hf & Ht & Hq & Hlen & [= ->] & ->)].
      exists i, l, j, arg. repeat split; try done; [apply reaches_here | lia].
Qed.
End OuterLoop.

(** ** The lookups *)

Section Lookups.
Implicit Types (l : list arg_t) (name : string).

Lemma get_value_in_find l name :
  get_value_in l name = find_arg l name ≫= λ ja, value ja.2.
Proof.
  induction l as [|b l IH]; simpl; [done|].
  destruct (name_matches b name); [done|].
  rewrite IH. by destruct (find_arg l name) as [[??]|].
Qed.

Lemma is_flag_set_in_find l name :
  is_flag_set_in l name = from_option (λ ja, set ja.2) false (find_arg l name).
Proof.
  induction l as [|b l IH]; simpl; [done|].
  destruct (name_matches b name); [done|].
  rewrite IH. by destruct (find_arg l name) as [[??]|].
Qed.

Lemma has_in_find l name :
  has_in l name = from_option (λ ja, has_entry ja.2) false (find_arg l name).
Proof.
  induction l as [|b l IH]; simpl; [done|].
  destruct (name_matches b name).
  - simpl. unfold has_entry. by destruct (type b).
  - rewrite IH. by destruct (find_arg l name) as [[??]|].
Qed.

Lemma find_arg_insert_same l name j arg arg' :
  find_arg l name = Some (j, arg) →
  name_matches arg' name = true →
  find_arg (<[j := arg']> l) name = Some (j, arg').
Proof.
  rewrite !find_arg_first_match. intros (Hj & _ & Hmin) Hm.
  repeat split; [|done|].
  - apply list_lookup_insert_eq. by eapply lookup_lt_Some.
  - intros k b Hk Hb. rewrite list_lookup_insert_ne in Hb by lia. eauto.
Qed.
End Lookups.

(** ** The check for required entries *)

Section Required.
Implicit Types (l : list arg_t).

Lemma required_check_None l :
  required_check l = None ↔ ∀ b, b ∈ l → missing b = false.
Proof.
  induction l as [|b l IH]; simpl.
  - split; [intros _ ? ?%elem_of_nil; done | done].
  - fold (missing b). destruct (missing b) eqn:Hb.
    + split; [discriminate|]. intros H.
      rewrite H in Hb; [discriminate | left].
    + rewrite IH. split.
      * intros H c [->|?]%elem_of_cons; auto.
      * intros H c ?. apply H. by right.
Qed.

Lemma required_check_Some l d :
  required_check l = Some d ↔
  ∃ pre e post, l = pre ++ e :: post ∧
    (∀ b, b ∈ pre → missing b = false) ∧
    required e = true ∧ set e = false ∧
    d = MissingRequiredArgument (long_name e).
Proof.
  induction l as [|b l IH]; simpl.
  - split; [discriminate|].
    intros (pre & e & post & H & _). by destruct pre.
  - fold (missing b). destruct (missing b) eqn:Hb.
    + split.
      * intros [= <-]. exists [], b, l.
        apply andb_true_iff in Hb as [? ?%negb_true_iff].
        repeat split; [|done..]. by intros ? ?%elem_of_nil.
      * intros (pre & e & post & H & Hpre & _ & _ & ->).
        destruct pre as [|c pre]; simplify_eq/=.
        { done. }
        rewrite Hpre in Hb; [discriminate | left].
    + rewrite IH. split.
      * intros (pre & e & post & -> & Hpre & ?).
        exists (b :: pre), e, post. split; [done|]. split; [|done].
        intros c [->|?]%elem_of_cons; auto.
      * intros (pre & e & post & H & Hpre & Hr & Hs & ->).
        destruct pre as [|c pre]; simplify_eq/=.
        { unfold missing in Hb. by rewrite Hr, Hs in Hb. }
        exists pre, e, post. repeat split; [|done..].
        intros c' ?. apply Hpre. by right.
Qed.
End Required.

(** ** The value invariant *)

Section Invariant.
Implicit Types (argv : list string) (l : list arg_t).

Lemma value_invariant_nil : value_invariant [].
Proof. by intros arg ?%elem_of_nil. Qed.

Lemma value_invariant_insert l j arg :
  value_invariant l →
  (value arg ≠ None → type arg = ARG_TYPE_VALUE ∧ set arg = true) →
  value_invariant (<[j := arg]> l).
Proof.
  intros Hl Harg b [k Hk]%list_elem_of_lookup.
  destruct (decide (j = k)) as [->|Hne].
  - destruct (decide (k < length l)) as [Hlt|Hge].
    + rewrite list_lookup_insert_eq in Hk by done. by simplify_eq.
    + rewrite list_insert_ge in Hk by lia.
      apply Hl, list_elem_of_lookup. eauto.
  - rewrite list_lookup_insert_ne in Hk by done.
    apply Hl, list_elem_of_lookup. eauto.
Qed.

Lemma value_invariant_snoc l arg :
  value_invariant l → value arg = None → value_invariant (l ++ [arg]).
Proof.
  intros Hl Harg b [?|Hb%list_elem_of_singleton]%elem_of_app; [auto|].
  subst b. by rewrite Harg.
Qed.

Lemma value_invariant_assign_set l j arg :
  value_invariant l → l !! j = Some arg →
  value_invariant (<[j := assign_set arg]> l).
Proof.
  intros Hl Hj. apply value_invariant_insert; [done|]. simpl.
  intros Hv. split; [|done].
  apply Hl; [|done]. apply list_elem_of_lookup. eauto.
Qed.

Lemma loop_body_value_invariant argv i l :
  value_invariant l →
  match loop_body argv i l with
  | Continue _ l' | Stop _ l' => value_invariant l'
  end.
Proof.
  intros Hl. destruct (loop_body argv i l) as [i' l'|d l'] eqn:Hb.
  - apply loop_body_Continue_inv in Hb
      as (j & arg & Hf%find_arg_Some_lookup & [[_ ->]|(_ & _ & Ht & ->)]).
    + by apply value_invariant_assign_set.
    + by apply value_invariant_insert.
  - apply loop_body_Stop_inv in Hb
      as [(_ & _ & ->)|(j & arg & Hf%find_arg_Some_lookup & _ & _ & _ & _ & ->)];
      [done|].
    by apply value_invariant_assign_set.
Qed.

Lemma token_loop_value_invariant fuel argv i l r :
  value_invariant l →
  token_loop fuel argv i l = Some r →
  value_invariant (args (final (finish r))).
Proof.
  revert i l. induction fuel as [|fuel IH]; intros i l Hl; simpl.
  - destruct (i <? length argv); [discriminate|].
    intros [= <-]. simpl. unfold check_required.
    by destruct (required_check l).
  - destruct (i <? length argv).
    + pose proof (loop_body_value_invariant argv i l Hl) as Hb.
      destruct (loop_body argv i l) as [i' l'|d l']; [by apply IH|].
      by intros [= <-].
    + intros [= <-]. simpl. unfold check_required.
      by destruct (required_check l).
Qed.

Lemma arg_parser_parse_value_invariant parser argv o :
  value_invariant (args parser) →
  arg_parser_parse parser argv = Some o →
  value_invariant (args (final o)).
Proof.
  unfold arg_parser_parse, parse_from. intros Hl Ho.
  apply fmap_Some in Ho as (r & Hr & ->).
  by eapply token_loop_value_invariant.
Qed.
End Invariant.

(** ** Entries without a name *)

Section Nameless.
Implicit Types (argv : list string) (l : list arg_t) (e : arg_t).

Lemma insert_entry_0 e l : insert_entry 0 e l = e :: l.
Proof. unfold insert_entry. by rewrite take_0, drop_0. Qed.

Lemma insert_entry_S n e b l :
  insert_entry (S n) e (b :: l) = b :: insert_entry n e l.
Proof. done. Qed.

Lemma insert_entry_nil n e : insert_entry n e [] = [e].
Proof. unfold insert_entry. by rewrite take_nil, drop_nil. Qed.

Lemma insert_entry_app pre post e :
  insert_entry (length pre) e (pre ++ post) = pre ++ e :: post.
Proof.
  unfold insert_entry. by rewrite take_app_length, drop_app_length.
Qed.

Lemma scan_entries_skip argv i e l :
  name_matches e (argv_at argv i) = false →
  scan_entries argv i (e :: l) = scan_cons e (scan_entries argv i l).
Proof. intros H. simpl. by rewrite H. Qed.

Lemma required_check_skip e l :
  missing e = false → required_check (e :: l) = required_check l.
Proof. intros H. simpl. fold (missing e). by rewrite H. Qed.

Lemma find_arg_skip e l name :
  name_matches e name = false →
  find_arg (e :: l) name = prod_map S id <$> find_arg l name.
Proof. intros H. simpl. by rewrite H. Qed.

(** The four loops step over a nameless entry. *)
Lemma scan_entries_insert_entry argv i n e l :
  nameless e →
  scan_entries argv i (insert_entry n e l) =
  scan_map (insert_entry n e) (scan_entries argv i l).
Proof.
  intros He. revert n. induction l as [|b l IH]; intros n.
  - rewrite insert_entry_nil. simpl.
    by rewrite (nameless_no_match e _ He).
  - destruct n as [|n].
    + rewrite insert_entry_0.
      rewrite scan_entries_skip by by apply nameless_no_match.
      destruct (scan_entries argv i (b :: l)); simpl;
        by rewrite ?insert_entry_0.
    + rewrite insert_entry_S. simpl.
      destruct (name_matches b (argv_at argv i)).
      * by repeat case_match.
      * rewrite IH. by destruct (scan_entries argv i l).
Qed.

Lemma loop_body_insert_entry argv i n e l :
  nameless e →
  loop_body argv i (insert_entry n e l) =
  iter_map (insert_entry n e) (loop_body argv i l).
Proof.
  intros He. unfold loop_body. rewrite scan_entries_insert_entry by done.
  by destruct (scan_entries argv i l).
Qed.

Lemma token_loop_insert_entry fuel argv i n e l :
  nameless e →
  token_loop fuel argv i (insert_entry n e l) =
  loop_map (insert_entry n e) <$> token_loop fuel argv i l.
Proof.
  intros He. revert i l. induction fuel as [|fuel IH]; intros i l; simpl.
  - by destruct (i <? length argv).
  - destruct (i <? length argv); [|done].
    rewrite loop_body_insert_entry by done.
    destruct (loop_body argv i l) as [i' l'|d l']; simpl; [apply IH | done].
Qed.

Lemma required_check_insert_entry n e l :
  missing e = false →
  required_check (insert_entry n e l) = required_check l.
Proof.
  intros He. revert n. induction l as [|b l IH]; intros n.
  - rewrite insert_entry_nil. simpl. fold (missing e). by rewrite He.
  - destruct n as [|n].
    + rewrite insert_entry_0.
      by rewrite required_check_skip.
    + rewrite insert_entry_S. simpl. by rewrite IH.
Qed.

Lemma find_arg_insert_entry n e l name :
  nameless e →
  snd <$> find_arg (insert_entry n e l) name = snd <$> find_arg l name.
Proof.
  intros He. revert n. induction l as [|b l IH]; intros n.
  - rewrite insert_entry_nil. simpl.
    by rewrite (nameless_no_match e _ He).
  - destruct n as [|n].
    + rewrite insert_entry_0.
      rewrite find_arg_skip by by apply nameless_no_match.
      by destruct (find_arg (b :: l) name) as [[??]|].
    + rewrite insert_entry_S. simpl.
      destruct (name_matches b name); [done|].
      specialize (IH n).
      destruct (find_arg (insert_entry n e l) name) as [[??]|],
        (find_arg l name) as [[??]|]; by simplify_eq/=.
Qed.

Lemma lookups_insert_entry n e l name :
  nameless e →
  get_value_in (insert_entry n e l) name = get_value_in l name ∧
  is_flag_set_in (insert_entry n e l) name = is_flag_set_in l name ∧
  has_in (insert_entry n e l) name = has_in l name.
Proof.
  intros He. rewrite !get_value_in_find, !is_flag_set_in_find, !has_in_find.
  pose proof (find_arg_insert_entry n e l name He) as H.
  destruct (find_arg (insert_entry n e l) name) as [[??]|],
    (find_arg l name) as [[??]|]; by simplify_eq/=.
Qed.

Lemma parse_from_insert_entry argv i n e l :
  nameless e →
  ∃ r, token_loop (length argv - i) argv i l = Some r ∧
    parse_from argv i l = Some (finish r) ∧
    parse_from argv i (insert_entry n e l) =
    Some (finish (loop_map (insert_entry n e) r)).
Proof.
  intros He. unfold parse_from.
  rewrite token_loop_insert_entry by done.
  destruct (token_loop_total (length argv - i) argv i l) as [r ->]; [lia|].
  by exists r.
Qed.
End Nameless.

(** ** Names are not written by parsing *)

Section NamesKept.
Implicit Types (argv : list string) (l m : list arg_t).

Lemma find_arg_None_names l m s :
  entry_names <$> l = entry_names <$> m →
  find_arg l s = None → find_arg m s = None.
Proof.
  revert m. induction l as [|a l IH]; intros [|b m]; try done.
  intros [= Hs Hl Hrest]. simpl.
  unfold name_matches. rewrite Hs, Hl.
  destruct (guarded_eq (short_name b) s || guarded_eq (long_name b) s);
    [done|].
  rewrite !fmap_None. by apply IH.
Qed.

Lemma entry_names_insert l j arg arg' :
  l !! j = Some arg → entry_names arg' = entry_names arg →
  entry_names <$> <[j := arg']> l = entry_names <$> l.
Proof.
  intros Hj Hn. rewrite list_fmap_insert, Hn.
  apply list_insert_id. by rewrite list_lookup_fmap, Hj.
Qed.

Lemma loop_body_names argv i l i' l' :
  loop_body argv i l = Continue i' l' →
  entry_names <$> l' = entry_names <$> l.
Proof.
  intros (j & arg & Hf%find_arg_Some_lookup & [[_ ->]|(_ & _ & _ & ->)])
    %loop_body_Continue_inv; by eapply entry_names_insert.
Qed.

Lemma scan_reaches_names argv i l k m :
  scan_reaches argv i l k m → entry_names <$> m = entry_names <$> l.
Proof.
  induction 1 as [|i l i' l' k m _ Hb%loop_body_names _ IH]; congruence.
Qed.
End NamesKept.

(** ** The whole call *)

Section Parse.
Implicit Types (parser : arg_parser_t) (argv : list string).

Lemma arg_parser_parse_total parser argv :
  is_Some (arg_parser_parse parser argv).
Proof. apply parse_from_total. Qed.

(** Once every token is consumed the outcome is that of the check for
    required entries: failure at the first entry that is required and
    not set, with its [long_name] pointer as the name printed. *)
Lemma arg_parser_parse_required parser argv k l :
  scan_reaches argv 1 (args parser) k l →
  length argv ≤ k →
  arg_parser_parse parser argv = Some (check_required l).
Proof.
  intros Hr Hk. unfold arg_parser_parse.
  rewrite (parse_from_reaches _ _ _ _ _ Hr). by apply parse_from_end.
Qed.

Lemma check_required_missing l e :
  e ∈ l → required e = true → set e = false →
  ∃ pre e' post, l = pre ++ e' :: post ∧
    (∀ b, b ∈ pre → missing b = false) ∧
    required e' = true ∧ set e' = false ∧
    check_required l =
    {| retval := 0; stdout := [MissingRequiredArgument (long_name e')];
       final := {| args := l |} |}.
Proof.
  intros Hin Hr Hs. unfold check_required.
  destruct (required_check l) as [d|] eqn:Hc.
  - apply required_check_Some in Hc
      as (pre & e' & post & -> & Hpre & Hr' & Hs' & ->).
    by exists pre, e', post.
  - rewrite required_check_None in Hc. specialize (Hc e Hin).
    unfold missing in Hc. by rewrite Hr, Hs in Hc.
Qed.
End Parse.

(** ** What parsing keeps *)

Section Extends.
Implicit Types (argv : list string) (l m : list arg_t).

Lemma entry_extends_refl a : entry_extends a a.
Proof. by repeat split. Qed.

Lemma entry_extends_trans a b c :
  entry_extends a b → entry_extends b c → entry_extends a c.
Proof.
  intros (Hd & Hs & Hv) (Hd' & Hs' & Hv').
  split; [congruence|]. split; auto.
Qed.

Lemma entry_extends_assign_set a : entry_extends a (assign_set a).
Proof. by repeat split. Qed.

Lemma entry_extends_assign_value a v :
  entry_extends a (assign_value (assign_set a) v).
Proof. by repeat split. Qed.

Lemma registry_extends_refl l : registry_extends l l.
Proof. induction l; constructor; [apply entry_extends_refl | done]. Qed.

Lemma registry_extends_trans l m n :
  registry_extends l m → registry_extends m n → registry_extends l n.
Proof.
  unfold registry_extends. intros H. revert n.
  induction H as [|a b l m Hab _ IH]; intros n Hn.
  - inversion Hn. constructor.
  - inversion Hn as [|? c ? n' Hbc Hmn]; subst.
    constructor; [by eapply entry_extends_trans | by apply IH].
Qed.

Lemma registry_extends_insert l j a b :
  l !! j = Some a → entry_extends a b → registry_extends l (<[j := b]> l).
Proof.
  intros Hj Hab. unfold registry_extends.
  rewrite <- (list_insert_id l j a Hj) at 1.
  apply Forall2_insert; [apply registry_extends_refl | done].
Qed.

Lemma loop_body_extends argv i l :
  match loop_body argv i l with
  | Continue _ l' | Stop _ l' => registry_extends l l'
  end.
Proof.
  destruct (loop_body argv i l) as [i' l'|d l'] eqn:Hb.
  - apply loop_body_Continue_inv in Hb
      as (j & arg & Hf%find_arg_Some_lookup & [[_ ->]|(_ & _ & _ & ->)]).
    + eapply registry_extends_insert; [done | apply entry_extends_assign_set].
    + eapply registry_extends_insert; [done|].
      apply entry_extends_assign_value.
  - apply loop_body_Stop_inv in Hb
      as [(_ & _ & ->)|(j & arg & Hf%find_arg_Some_lookup & _ & _ & _ & _ & ->)].
    + apply registry_extends_refl.
    + eapply registry_extends_insert; [done | apply entry_extends_assign_set].
Qed.

Lemma scan_reaches_extends argv i l k m :
  scan_reaches argv i l k m → registry_extends l m.
Proof.
  induction 1 as [|i l i' l' k m _ Hb _ IH]; [apply registry_extends_refl|].
  pose proof (loop_body_extends argv i l) as H. rewrite Hb in H.
  by eapply registry_extends_trans.
Qed.

Lemma token_loop_extends fuel argv i l r :
  token_loop fuel argv i l = Some r →
  registry_extends l (args (final (finish r))).
Proof.
  revert i l. induction fuel as [|fuel IH]; intros i l; simpl.
  - destruct (i <? length argv); [discriminate|].
    intros [= <-]. simpl. unfold check_required.
    destruct (required_check l); apply registry_extends_refl.
  - destruct (i <? length argv).
    + pose proof (loop_body_extends argv i l) as Hb.
      destruct (loop_body argv i l) as [i' l'|d l'].
      * intros Hr. eapply registry_extends_trans; [done | by eapply IH].
      * by intros [= <-].
    + intros [= <-]. simpl. unfold check_required.
      destruct (required_check l); apply registry_extends_refl.
Qed.

Lemma parse_from_extends argv i l o :
  parse_from argv i l = Some o → registry_extends l (args (final o)).
Proof.
  unfold parse_from. intros (r & Hr & ->)%fmap_Some.
  by eapply token_loop_extends.
Qed.

(** The first match of a name sits at the same index after parsing. *)
Lemma find_arg_extends l m name :
  registry_extends l m →
  match find_arg l name, find_arg m name with
  | Some (j, a), Some (j', b) => j = j' ∧ entry_extends a b
  | None, None => True
  | _, _ => False
  end.
Proof.
  induction 1 as [|a b l m Hab _ IH]; simpl; [done|].
  assert (Hn : name_matches a name = name_matches b name).
  { destruct Hab as (Hd & _). unfold name_matches.
    by injection Hd as -> -> _ _ _. }
  rewrite <- Hn. destruct (name_matches a name); [done|].
  destruct (find_arg l name) as [[j a']|], (find_arg m name) as [[j' b']|];
    simpl; try done.
  destruct IH as [-> ?]. done.
Qed.

Lemma help_line_declaration a b :
  declaration a = declaration b → help_line a = help_line b.
Proof.
  unfold help_line, type_str. by intros [= -> -> -> _ ->].
Qed.

Lemma help_lines_extends l m :
  registry_extends l m → help_lines l = help_lines m.
Proof.
  induction 1 as [|a b l m (Hd & _) _ IH]; simpl; [done|].
  by rewrite (help_line_declaration a b Hd), IH.
Qed.
End Extends.

(** * The claims *)

(** C1.  [arg_parser_parse] is the outer loop entered at index 1, the
    token after the program name (which it never reads), and it goes
    through [argv] from left to right.  When the loop is at a token that
    an entry matches (the token is the text of its short or of its long
    name; the first such entry is taken): if the entry is a flag, it
    becomes set and the loop moves on by one token; if it is a value and
    a token follows, it becomes set, the following token becomes its
    value and the loop moves on by two tokens.  The call then returns
    what the run from the next index returns, and in the registry it
    leaves, the entry is set (and holds a value, in the second case);
    when the tokens end there, that registry is the one after the
    iteration and the outcome is that of the check for required
    entries. *)
Theorem C1_parse_left_to_right parser argv i l j arg :
  scan_reaches argv 1 (args parser) i l →
  i < length argv →
  find_arg l (argv_at argv i) = Some (j, arg) →
  (∀ prog,
     arg_parser_parse parser (prog :: tail argv) =
     arg_parser_parse parser argv) ∧
  (short_name arg = Some (argv_at argv i) ∨
   long_name arg = Some (argv_at argv i)) ∧
  (type arg = ARG_TYPE_FLAG →
     let l' := <[j := assign_set arg]> l in
     loop_body argv i l = Continue (S i) l' ∧
     l' !! j = Some (assign_set arg) ∧ set (assign_set arg) = true ∧
     scan_reaches argv 1 (args parser) (S i) l' ∧
     arg_parser_parse parser argv = parse_from argv (S i) l' ∧
     ∃ o, arg_parser_parse parser argv = Some o ∧
       (∃ b, args (final o) !! j = Some b ∧
          declaration b = declaration arg ∧ set b = true) ∧
       arg_parser_is_flag_set (final o) (argv_at argv i) = true ∧
       arg_parser_has (final o) (argv_at argv i) = true ∧
       (S i = length argv → o = check_required l')) ∧
  (type arg = ARG_TYPE_VALUE → S i < length argv →
     let arg' := assign_value (assign_set arg) (argv_at argv (S i)) in
     let l' := <[j := arg']> l in
     loop_body argv i l = Continue (S (S i)) l' ∧
     l' !! j = Some arg' ∧ set arg' = true ∧
     value arg' = argv !! S i ∧
     scan_reaches argv 1 (args parser) (S (S i)) l' ∧
     arg_parser_parse parser argv = parse_from argv (S (S i)) l' ∧
     ∃ o, arg_parser_parse parser argv = Some o ∧
       (∃ b, args (final o) !! j = Some b ∧
          declaration b = declaration arg ∧ set b = true ∧
          value b ≠ None) ∧
       arg_parser_is_flag_set (final o) (argv_at argv i) = true ∧
       arg_parser_has (final o) (argv_at argv i) = true ∧
       arg_parser_get_value (final o) (argv_at argv i) ≠ None ∧
       (S (S i) = length argv →
        o = check_required l' ∧
        arg_parser_get_value (final o) (argv_at argv i) = argv !! S i)).
Proof.
  intros Hr Hi Hf.
  pose proof (find_arg_Some_lookup _ _ _ _ Hf) as Hj.
  pose proof (find_arg_Some_matches _ _ _ _ Hf) as Hm.
  apply lookup_lt_Some in Hj.
  (* what the call returns, once the iteration at [i] has gone on to
     index [i'] with the entry [a1] written at [j] *)
  assert (Hrest : ∀ i' a1,
    loop_body argv i l = Continue i' (<[j := a1]> l) →
    entry_extends (assign_set arg) a1 →
    arg_parser_parse parser argv = parse_from argv i' (<[j := a1]> l) ∧
    ∃ o, arg_parser_parse parser argv = Some o ∧
      (∃ b, args (final o) !! j = Some b ∧ entry_extends a1 b) ∧
      (∃ b, find_arg (args (final o)) (argv_at argv i) = Some (j, b) ∧
         entry_extends a1 b) ∧
      (i' = length argv → o = check_required (<[j := a1]> l))).
  { intros i' a1 Hb (Hd & _).
    assert (Hp : arg_parser_parse parser argv
                 = parse_from argv i' (<[j := a1]> l)).
    { unfold arg_parser_parse. rewrite (parse_from_reaches _ _ _ _ _ Hr).
      by apply parse_from_Continue. }
    split; [done|].
    destruct (parse_from_total argv i' (<[j := a1]> l)) as [o Ho].
    exists o. rewrite Hp. split; [done|].
    pose proof (parse_from_extends _ _ _ _ Ho) as Hext.
    assert (Hm1 : name_matches a1 (argv_at argv i) = true).
    { rewrite <- Hm. unfold name_matches.
      by injection Hd as <- <- _ _ _. }
    pose proof (find_arg_insert_same l _ j arg a1 Hf Hm1) as Hf1.
    split; [|split].
    - apply (Forall2_lookup_l _ _ _ j a1) in Hext as (b & Hb' & He);
        [by exists b | by apply list_lookup_insert_eq].
    - pose proof (find_arg_extends _ _ (argv_at argv i) Hext) as Hfe.
      rewrite Hf1 in Hfe.
      destruct (find_arg (args (final o)) (argv_at argv i)) as [[j' b]|];
        [|done].
      destruct Hfe as [<- He]. by exists b.
    - intros ->. rewrite parse_from_end in Ho by done. by injection Ho. }
  split; [|split; [|split]].
  - intros prog. destruct argv as [|a toks]; [simpl in Hi; lia|].
    by apply parse_from_program_name.
  - by apply name_matches_true.
  - intros Ht l'.
    pose proof (loop_body_flag _ _ _ _ _ Hf Ht) as Hb.
    destruct (Hrest (S i) (assign_set arg) Hb (entry_extends_refl _))
      as (Hp & o & Ho & (b & Hjb & Hdb & Hsb & _)
            & (b' & Hfb & Hdb' & Hsb' & _) & Hend).
    split; [done|]. split; [by apply list_lookup_insert_eq|].
    split; [done|]. split; [by eapply scan_reaches_snoc|].
    split; [done|]. exists o. split; [done|]. split.
    { exists b. split; [done|]. split; [by rewrite <- Hdb | auto]. }
    unfold arg_parser_is_flag_set, arg_parser_has.
    rewrite is_flag_set_in_find, has_in_find, Hfb. simpl.
    split; [auto|]. split; [|done].
    unfold has_entry.
    assert (type b' = ARG_TYPE_FLAG) as ->.
    { rewrite <- Ht. by injection Hdb'. }
    auto.
  - intros Ht Hnext arg' l'.
    pose proof (loop_body_value _ _ _ _ _ Hf Ht Hnext) as Hb.
    destruct (Hrest (S (S i)) arg' Hb (entry_extends_assign_value _ _))
      as (Hp & o & Ho & (b & Hjb & Hdb & Hsb & Hvb)
            & (b' & Hfb & Hdb' & Hsb' & Hvb') & Hend).
    assert (Hval : value arg' = argv !! S i).
    { simpl. unfold argv_at.
      by destruct (lookup_lt_is_Some_2 argv (S i) Hnext) as [v ->]. }
    split; [done|]. split; [by apply list_lookup_insert_eq|].
    split; [done|]. split; [done|].
    split; [by eapply scan_reaches_snoc|].
    split; [done|]. exists o. split; [done|]. split.
    { exists b. split; [done|]. split; [by rewrite <- Hdb|].
      split; [auto | by apply Hvb]. }
    unfold arg_parser_is_flag_set, arg_parser_has, arg_parser_get_value.
    rewrite is_flag_set_in_find, has_in_find, get_value_in_find, Hfb. simpl.
    split; [auto|].
    assert (value b' ≠ None) as Hv by by apply Hvb'.
    split.
    { unfold has_entry.
      assert (type b' = ARG_TYPE_VALUE) as ->.
      { rewrite <- Ht. by injection Hdb'. }
      by apply bool_decide_eq_true. }
    split; [done|].
    intros Hlen. specialize (Hend Hlen). split; [done|].
    assert (args (final o) = l') as Hfin.
    { rewrite Hend. unfold check_required. by destruct (required_check _). }
    rewrite Hfin in Hfb.
    assert (find_arg l' (argv_at argv i) = Some (j, arg')) as Hf1.
    { apply (find_arg_insert_same l _ j arg); [done | exact Hm]. }
    rewrite Hf1 in Hfb. by injection Hfb as <-.
Qed.

(** C2.  When the loop is at a token that no declared name matches, the
    call returns 0 with the diagnostic for that token, and the registry
    is left as it was on arrival at the token: what earlier tokens wrote
    stays, and nothing is written for the tokens that follow, whatever
    they are. *)
Theorem C2_unrecognized_aborts parser argv i l :
  scan_reaches argv 1 (args parser) i l →
  i < length argv →
  find_arg (args parser) (argv_at argv i) = None →
  let failure :=
    {| retval := 0;
       stdout := [UnrecognizedArgument (argv_at argv i)];
       final := {| args := l |} |} in
  arg_parser_parse parser argv = Some failure ∧
  ∀ rest, arg_parser_parse parser (take (S i) argv ++ rest) = Some failure.
Proof.
  intros Hr Hi Hnone failure.
  cut (∀ rest,
         arg_parser_parse parser (take (S i) argv ++ rest) = Some failure).
  { intros H. split; [|done].
    specialize (H (drop (S i) argv)). by rewrite take_drop in H. }
  subst failure. intros rest.
  set (argv' := take (S i) argv ++ rest).
  assert (Hlen : i < length argv').
  { unfold argv'. rewrite length_app, length_take. lia. }
  assert (Htake : take (S i) argv' = take (S i) argv).
  { unfold argv'. rewrite take_app_le by (rewrite length_take; lia).
    apply take_idemp. }
  assert (Hat : argv_at argv' i = argv_at argv i).
  { unfold argv_at.
    rewrite <- (lookup_take_lt argv' (S i) i), Htake by lia.
    by rewrite lookup_take_lt by lia. }
  pose proof (scan_reaches_ext _ argv' _ _ _ _ Hr Hi Hlen Htake) as Hr'.
  unfold arg_parser_parse. rewrite (parse_from_reaches _ _ _ _ _ Hr').
  rewrite <- Hat. apply parse_from_Stop; [done|].
  apply loop_body_unrecognized. rewrite Hat.
  eapply find_arg_None_names; [|done].
  symmetry. by eapply scan_reaches_names.
Qed.

(** C3.  The call on a registry whose only entry is required and has a
    short name but no long name, with no token to parse: it returns 0
    and reports the missing entry, but the name it hands to the
    diagnostic is the null [long_name] pointer, for which no line is
    defined, and not the short name the entry does have.  On the
    registry of the examples, whose required entry has both names, the
    name reported is the long one. *)
Theorem C3_missing_required_null_long_name :
  arg_parser_parse demo_parser ["prog"] =
  Some {| retval := 0;
          stdout := [MissingRequiredArgument (Some "--name")];
          final := demo_parser |} ∧
  arg_parser_parse short_only_parser ["prog"] =
  Some {| retval := 0;
          stdout := [MissingRequiredArgument None];
          final := short_only_parser |} ∧
  short_name <$> args short_only_parser = [Some "-n"] ∧
  printed_line (MissingRequiredArgument None) = None.
Proof. by vm_compute. Qed.

(** C4.  When the loop is at the last token of [argv] and the entry this
    token resolves to is a value and is required, the call returns 0 at
    once with the diagnostic [MissingValue] for that token; the second
    loop is not run. *)
Theorem C4_missing_value_required parser argv i l j arg :
  scan_reaches argv 1 (args parser) i l →
  S i = length argv →
  find_arg l (argv_at argv i) = Some (j, arg) →
  type arg = ARG_TYPE_VALUE →
  required arg = true →
  arg_parser_parse parser argv =
  Some {| retval := 0;
          stdout := [MissingValue (argv_at argv i)];
          final := {| args := <[j := assign_set arg]> l |} |}.
Proof.
  intros Hr Hi Hf Ht Hq. unfold arg_parser_parse.
  rewrite (parse_from_reaches _ _ _ _ _ Hr).
  apply parse_from_Stop; [lia|].
  rewrite (loop_body_value_last _ _ _ _ _ Hf Ht) by lia. by rewrite Hq.
Qed.

(** C5, as amended.  When the loop is at the last token of [argv] and
    the entry this token resolves to is a value and is not required, the
    iteration does not fail: the entry becomes set and its value is left
    as it was on arrival at the token, which is absent only if nothing
    had stored one before (an earlier occurrence of the option with a
    value, or an earlier call); the loop ends, and the outcome of the
    call is that of the check for required entries, which is success
    when no required entry is left unset. *)
Theorem C5_optional_value_without_token parser argv i l j arg :
  scan_reaches argv 1 (args parser) i l →
  S i = length argv →
  find_arg l (argv_at argv i) = Some (j, arg) →
  type arg = ARG_TYPE_VALUE →
  required arg = false →
  let l' := <[j := assign_set arg]> l in
  loop_body argv i l = Continue (S i) l' ∧
  l' !! j = Some (assign_set arg) ∧
  set (assign_set arg) = true ∧
  value (assign_set arg) = value arg ∧
  (value arg = None →
   arg_parser_get_value {| args := l' |} (argv_at argv i) = None) ∧
  arg_parser_is_flag_set {| args := l' |} (argv_at argv i) = true ∧
  arg_parser_parse parser argv = Some (check_required l') ∧
  (required_check l' = None →
   arg_parser_parse parser argv =
   Some {| retval := 1; stdout := []; final := {| args := l' |} |}) ∧
  final (check_required l') = {| args := l' |} ∧
  arg_parser_get_value {| args := l' |} (argv_at argv i) = value arg.
Proof.
  intros Hr Hi Hf Ht Hq l'.
  assert (Hb : loop_body argv i l = Continue (S i) l').
  { rewrite (loop_body_value_last _ _ _ _ _ Hf Ht) by lia. by rewrite Hq. }
  assert (Hf' : find_arg l' (argv_at argv i) = Some (j, assign_set arg)).
  { apply (find_arg_insert_same l _ j arg); [done|].
    rewrite name_matches_assign_set. by eapply find_arg_Some_matches. }
  assert (Hp : arg_parser_parse parser argv = Some (check_required l')).
  { apply (arg_parser_parse_required _ _ (S i)); [|lia].
    eapply scan_reaches_snoc; [done | lia | done]. }
  repeat split; try done.
  - by eapply find_arg_Some_lookup.
  - intros Hv. unfold arg_parser_get_value. simpl.
    by rewrite get_value_in_find, Hf'.
  - unfold arg_parser_is_flag_set. simpl.
    by rewrite is_flag_set_in_find, Hf'.
  - intros Hc. rewrite Hp. unfold check_required. by rewrite Hc.
  - unfold check_required. by destruct (required_check _).
  - unfold arg_parser_get_value. simpl.
    by rewrite get_value_in_find, Hf'.
Qed.

(** C6.  [arg_parser_has] answers true exactly when some entry matches
    the name and the first one that does is, if a flag, set, and if a
    value, holding a value; in every other case, no matching entry
    included, it answers false. *)
Theorem C6_has_iff parser name :
  (arg_parser_has parser name = true ↔
   ∃ j arg, first_match (args parser) name j arg ∧
     match type arg with
     | ARG_TYPE_FLAG => set arg = true
     | ARG_TYPE_VALUE => value arg ≠ None
     end) ∧
  (find_arg (args parser) name = None → arg_parser_has parser name = false).
Proof.
  unfold arg_parser_has. rewrite has_in_find. split.
  - destruct (find_arg (args parser) name) as [[j arg]|] eqn:Hf; simpl.
    + split.
      * intros Hh. exists j, arg. split; [by apply find_arg_first_match|].
        unfold has_entry in Hh. destruct (type arg); [done|].
        by apply bool_decide_eq_true in Hh.
      * intros (j' & arg' & Hfm%find_arg_first_match & Hh).
        rewrite Hf in Hfm. injection Hfm as <- <-.
        unfold has_entry. destruct (type arg); [done|].
        by apply bool_decide_eq_true.
    + split; [discriminate|].
      intros (j' & arg' & Hfm%find_arg_first_match & _). congruence.
  - by intros ->.
Qed.

(** C7.  With entries [pre] that the name does not match, then an entry
    [e] that it matches, the three lookups answer from [e], whatever
    entries [post] come after it, entries of the same name included. *)
Theorem C7_lookups_first_match pre e post name :
  find_arg pre name = None →
  name_matches e name = true →
  let parser := {| args := pre ++ e :: post |} in
  arg_parser_get_value parser name = value e ∧
  arg_parser_is_flag_set parser name = set e ∧
  arg_parser_has parser name = has_entry e ∧
  ∀ post',
    let parser' := {| args := pre ++ e :: post' |} in
    arg_parser_get_value parser' name = arg_parser_get_value parser name ∧
    arg_parser_is_flag_set parser' name = arg_parser_is_flag_set parser name ∧
    arg_parser_has parser' name = arg_parser_has parser name.
Proof.
  intros Hpre He parser.
  unfold arg_parser_get_value, arg_parser_is_flag_set, arg_parser_has.
  subst parser. simpl.
  rewrite get_value_in_find, is_flag_set_in_find, has_in_find.
  rewrite (find_arg_app_cons pre e post name Hpre He). simpl.
  repeat split; try done.
  all: rewrite ?get_value_in_find, ?is_flag_set_in_find, ?has_in_find.
  all: by rewrite (find_arg_app_cons pre e post' name Hpre He).
Qed.

(** C8.  In every registry built from [arg_parser_create] by calls of
    [arg_parser_add] and [arg_parser_parse], an entry that holds a value
    is a value-kind entry and is set.  The property holds of the empty
    registry and is kept by [arg_parser_add] and by [arg_parser_parse],
    which always returns, whether with 1 or with 0. *)
Theorem C8_value_invariant :
  value_invariant (args arg_parser_create) ∧
  (∀ parser short long ty req descr,
     value_invariant (args parser) →
     value_invariant (args (arg_parser_add parser short long ty req descr))) ∧
  (∀ parser argv,
     value_invariant (args parser) →
     ∃ o, arg_parser_parse parser argv = Some o ∧
          (retval o = 0%Z ∨ retval o = 1%Z) ∧
          value_invariant (args (final o))) ∧
  (∀ parser, reachable parser → value_invariant (args parser)).
Proof.
  assert (Hadd : ∀ parser short long ty req descr,
    value_invariant (args parser) →
    value_invariant (args (arg_parser_add parser short long ty req descr))).
  { intros parser short long ty req descr H.
    by apply value_invariant_snoc. }
  split; [|split; [|split]].
  - apply value_invariant_nil.
  - done.
  - intros parser argv H.
    destruct (arg_parser_parse_total parser argv) as [o Ho].
    exists o. split; [done|].
    split; [|by eapply arg_parser_parse_value_invariant].
    unfold arg_parser_parse, parse_from in Ho.
    apply fmap_Some in Ho as ([l|d l] & _ & ->); simpl; [|by left].
    unfold check_required. destruct (required_check l); simpl; auto.
  - induction 1 as [|parser short long ty req descr _ IH|parser argv o _ IH Ho].
    + apply value_invariant_nil.
    + by apply Hadd.
    + by eapply arg_parser_parse_value_invariant.
Qed.

(** C9, as amended.  When the call ends with the diagnostic
    [MissingValue], the loop was at the last token of [argv], which
    resolved to a value-kind required entry; in the registry the call
    leaves, that entry is already set and its value is as it was on
    arrival at the token, which is absent only if nothing had stored one
    before; [arg_parser_is_flag_set] answers true, although the call
    returned 0, on the failing token and on every name that resolves to
    the failing entry (a name of the entry that an earlier entry matches
    first resolves to that earlier entry instead). *)
Theorem C9_missing_value_leaves_set parser argv o tok :
  arg_parser_parse parser argv = Some o →
  stdout o = [MissingValue tok] →
  retval o = 0%Z ∧
  ∃ i l j arg,
    scan_reaches argv 1 (args parser) i l ∧ S i = length argv ∧
    tok = argv_at argv i ∧
    find_arg l tok = Some (j, arg) ∧
    type arg = ARG_TYPE_VALUE ∧ required arg = true ∧
    args (final o) = <[j := assign_set arg]> l ∧
    first_match (args (final o)) tok j (assign_set arg) ∧
    set (assign_set arg) = true ∧
    value (assign_set arg) = value arg ∧
    arg_parser_get_value (final o) tok = value arg ∧
    (value arg = None → arg_parser_get_value (final o) tok = None) ∧
    arg_parser_is_flag_set (final o) tok = true ∧
    ∀ name, find_arg l name = Some (j, arg) →
      arg_parser_is_flag_set (final o) name = true ∧
      arg_parser_get_value (final o) name = value arg.
Proof.
  unfold arg_parser_parse, parse_from. intros Ho Hout.
  apply fmap_Some in Ho as ([l'|d l'] & Hloop & ->); simpl in *.
  { unfold check_required in Hout.
    destruct (required_check l') as [d|] eqn:Hc; simpl in Hout; [|done].
    apply required_check_Some in Hc as (? & ? & ? & _ & _ & _ & _ & ->).
    discriminate. }
  injection Hout as ->. split; [done|].
  apply token_loop_MissingValue_inv in Hloop
    as (i & l & j & arg & Hr & Hi & -> & Hf & Ht & Hq & ->).
  assert (Hf' : find_arg (<[j := assign_set arg]> l) (argv_at argv i)
                = Some (j, assign_set arg)).
  { apply (find_arg_insert_same l _ j arg); [done|].
    rewrite name_matches_assign_set. by eapply find_arg_Some_matches. }
  exists i, l, j, arg. repeat split; try done.
  - by eapply find_arg_Some_lookup.
  - by apply find_arg_first_match in Hf' as (_ & ? & _).
  - by apply find_arg_first_match in Hf' as (_ & _ & ?).
  - unfold arg_parser_get_value. simpl. by rewrite get_value_in_find, Hf'.
  - intros Hv. unfold arg_parser_get_value. simpl.
    by rewrite get_value_in_find, Hf'.
  - unfold arg_parser_is_flag_set. simpl.
    by rewrite is_flag_set_in_find, Hf'.
  - unfold arg_parser_is_flag_set. simpl.
    rewrite is_flag_set_in_find.
    rewrite (find_arg_insert_same l name j arg (assign_set arg)); [done..|].
    rewrite name_matches_assign_set. by eapply find_arg_Some_matches.
  - unfold arg_parser_get_value. simpl.
    rewrite get_value_in_find.
    rewrite (find_arg_insert_same l name j arg (assign_set arg)); [done..|].
    rewrite name_matches_assign_set. by eapply find_arg_Some_matches.
Qed.

(** C10.  An entry with neither name is matched by no string, so the
    three lookups answer as if it were not in the registry, and
    [arg_parser_parse] handles the tokens as if it were not there and
    leaves it as it was; the entry bears on the call only through the
    check for required entries, which it fails when it is required and
    not set. *)
Theorem C10_nameless_never_matched e :
  nameless e →
  (∀ s, name_matches e s = false) ∧
  (∀ n l name,
     arg_parser_get_value {| args := insert_entry n e l |} name =
       arg_parser_get_value {| args := l |} name ∧
     arg_parser_is_flag_set {| args := insert_entry n e l |} name =
       arg_parser_is_flag_set {| args := l |} name ∧
     arg_parser_has {| args := insert_entry n e l |} name =
       arg_parser_has {| args := l |} name) ∧
  (∀ n l argv, ∃ o o',
     arg_parser_parse {| args := l |} argv = Some o ∧
     arg_parser_parse {| args := insert_entry n e l |} argv = Some o' ∧
     args (final o') = insert_entry n e (args (final o)) ∧
     (missing e = false → retval o' = retval o ∧ stdout o' = stdout o) ∧
     (∀ d, stdout o = [d] → (∀ m, d ≠ MissingRequiredArgument m) →
        retval o' = retval o ∧ stdout o' = stdout o)).
Proof.
  intros He. split; [|split].
  - intros s. by apply nameless_no_match.
  - intros n l name. by apply lookups_insert_entry.
  - intros n l argv. unfold arg_parser_parse. simpl.
    destruct (parse_from_insert_entry argv 1 n e l He)
      as (r & _ & -> & ->).
    eexists _, _. split; [done|]. split; [done|].
    destruct r as [m|d m]; simpl.
    + unfold check_required.
      destruct (required_check m) as [d|] eqn:Hm; simpl.
      * split.
        { by destruct (required_check (insert_entry n e m)). }
        split.
        { intros Hmiss. by rewrite required_check_insert_entry, Hm. }
        intros d' [= <-] Hd.
        apply required_check_Some in Hm as (? & e' & ? & _ & _ & _ & _ & ->).
        by destruct (Hd (long_name e')).
      * split.
        { by destruct (required_check (insert_entry n e m)). }
        split; [|done].
        intros Hmiss. by rewrite required_check_insert_entry, Hm.
    + done.
Qed.

(** * The claims at concrete registries *)

Lemma C1_parse_left_to_right_witness :
  scan_reaches ["prog"; "--help"; "-n"; "Alice"] 1 (args demo_parser)
    2 [assign_set help_entry; name_entry] ∧
  2 < length ["prog"; "--help"; "-n"; "Alice"] ∧
  find_arg [assign_set help_entry; name_entry] "-n" = Some (1, name_entry) ∧
  loop_body ["prog"; "--help"; "-n"; "Alice"] 2
    [assign_set help_entry; name_entry] =
  Continue 4
    [assign_set help_entry; assign_value (assign_set name_entry) "Alice"] ∧
  arg_parser_parse demo_parser ["prog"; "--help"; "-n"; "Alice"] =
  Some {| retval := 1; stdout := [];
          final := {| args := [assign_set help_entry;
            assign_value (assign_set name_entry) "Alice"] |} |} ∧
  ∃ o, arg_parser_parse demo_parser ["prog"; "--help"; "-n"; "Alice"]
       = Some o ∧
    arg_parser_get_value (final o) "-n" = Some "Alice".
Proof.
  assert (Hr : scan_reaches ["prog"; "--help"; "-n"; "Alice"] 1
                 (args demo_parser) 2 [assign_set help_entry; name_entry]).
  { reach_step. apply reaches_here. }
  assert (Hi : 2 < length ["prog"; "--help"; "-n"; "Alice"]) by (simpl; lia).
  assert (Hn : 3 < length ["prog"; "--help"; "-n"; "Alice"]) by (simpl; lia).
  destruct (C1_parse_left_to_right demo_parser
              ["prog"; "--help"; "-n"; "Alice"] 2
              [assign_set help_entry; name_entry] 1 name_entry
              Hr Hi eq_refl) as (_ & _ & _ & Hvalue).
  destruct (Hvalue eq_refl Hn)
    as (Hb & _ & _ & _ & _ & _ & o & Ho & _ & _ & _ & _ & Hend).
  destruct (Hend eq_refl) as [Hcheck Hget].
  split; [exact Hr|]. split; [exact Hi|]. split; [reflexivity|].
  split; [exact Hb|]. split.
  - rewrite Ho, Hcheck. reflexivity.
  - exists o. split; [exact Ho | exact Hget].
Defined.

Lemma C2_unrecognized_aborts_witness :
  scan_reaches ["prog"; "--help"; "-x"; "-n"; "Alice"] 1 (args demo_parser)
    2 [assign_set help_entry; name_entry] ∧
  2 < length ["prog"; "--help"; "-x"; "-n"; "Alice"] ∧
  find_arg (args demo_parser) "-x" = None ∧
  arg_parser_parse demo_parser ["prog"; "--help"; "-x"; "-n"; "Alice"] =
  Some {| retval := 0; stdout := [UnrecognizedArgument "-x"];
          final := {| args := [assign_set help_entry; name_entry] |} |}.
Proof.
  assert (Hr : scan_reaches ["prog"; "--help"; "-x"; "-n"; "Alice"] 1
                 (args demo_parser) 2 [assign_set help_entry; name_entry]).
  { reach_step. apply reaches_here. }
  assert (Hi : 2 < length ["prog"; "--help"; "-x"; "-n"; "Alice"])
    by (simpl; lia).
  split; [exact Hr|]. split; [exact Hi|]. split; [reflexivity|].
  exact (proj1 (C2_unrecognized_aborts demo_parser
                  ["prog"; "--help"; "-x"; "-n"; "Alice"] 2
                  [assign_set help_entry; name_entry] Hr Hi eq_refl)).
Defined.

Lemma C4_missing_value_required_witness :
  scan_reaches ["prog"; "--help"; "-n"] 1 (args demo_parser)
    2 [assign_set help_entry; name_entry] ∧
  3 = length ["prog"; "--help"; "-n"] ∧
  find_arg [assign_set help_entry; name_entry] "-n" = Some (1, name_entry) ∧
  type name_entry = ARG_TYPE_VALUE ∧
  required name_entry = true ∧
  arg_parser_parse demo_parser ["prog"; "--help"; "-n"] =
  Some {| retval := 0; stdout := [MissingValue "-n"];
          final :=
            {| args := [assign_set help_entry; assign_set name_entry] |} |}.
Proof.
  assert (Hr : scan_reaches ["prog"; "--help"; "-n"] 1 (args demo_parser)
                 2 [assign_set help_entry; name_entry]).
  { reach_step. apply reaches_here. }
  split; [exact Hr|]. do 4 (split; [reflexivity|]).
  exact (C4_missing_value_required demo_parser ["prog"; "--help"; "-n"] 2
           [assign_set help_entry; name_entry] 1 name_entry
           Hr eq_refl eq_refl eq_refl eq_refl).
Defined.

Lemma C5_optional_value_without_token_witness :
  scan_reaches ["prog"; "-o"] 1 (args demo_optional)
    1 [help_entry; out_entry] ∧
  2 = length ["prog"; "-o"] ∧
  find_arg [help_entry; out_entry] "-o" = Some (1, out_entry) ∧
  type out_entry = ARG_TYPE_VALUE ∧
  required out_entry = false ∧
  arg_parser_parse demo_optional ["prog"; "-o"] =
  Some {| retval := 1; stdout := [];
          final := {| args := [help_entry; assign_set out_entry] |} |}.
Proof.
  assert (Hr : scan_reaches ["prog"; "-o"] 1 (args demo_optional)
                 1 [help_entry; out_entry]) by apply reaches_here.
  split; [exact Hr|]. do 4 (split; [reflexivity|]).
  destruct (C5_optional_value_without_token demo_optional ["prog"; "-o"] 1
              [help_entry; out_entry] 1 out_entry
              Hr eq_refl eq_refl eq_refl eq_refl)
    as (_ & _ & _ & _ & _ & _ & _ & Hok & _).
  exact (Hok eq_refl).
Defined.

Lemma C5_value_stays_absent_counterexample :
  scan_reaches ["prog"; "-o"; "x"; "-o"] 1 (args demo_optional)
    3 [help_entry; assign_value (assign_set out_entry) "x"] ∧
  4 = length ["prog"; "-o"; "x"; "-o"] ∧
  find_arg [help_entry; assign_value (assign_set out_entry) "x"] "-o" =
    Some (1, assign_value (assign_set out_entry) "x") ∧
  type (assign_value (assign_set out_entry) "x") = ARG_TYPE_VALUE ∧
  required (assign_value (assign_set out_entry) "x") = false ∧
  arg_parser_parse demo_optional ["prog"; "-o"; "x"; "-o"] =
  Some {| retval := 1; stdout := [];
          final := {| args := [help_entry;
            assign_value (assign_set out_entry) "x"] |} |} ∧
  arg_parser_is_flag_set
    {| args := [help_entry; assign_value (assign_set out_entry) "x"] |}
    "-o" = true ∧
  arg_parser_get_value
    {| args := [help_entry; assign_value (assign_set out_entry) "x"] |}
    "-o" = Some "x".
Proof.
  split.
  { reach_step. apply reaches_here. }
  repeat split.
Qed.

Lemma C6_has_iff_witness :
  arg_parser_has {| args := [assign_set help_entry; name_entry] |} "--help"
  = true ∧
  arg_parser_has {| args := [assign_set help_entry; name_entry] |} "--name"
  = false ∧
  arg_parser_has {| args := [assign_set help_entry; name_entry] |} "--nope"
  = false.
Proof.
  split; [|split].
  - apply (proj1 (C6_has_iff _ "--help")).
    exists 0, (assign_set help_entry).
    split; [|reflexivity].
    apply find_arg_first_match. reflexivity.
  - reflexivity.
  - apply (proj2 (C6_has_iff _ "--nope")). reflexivity.
Defined.

Lemma C7_lookups_first_match_witness :
  find_arg [help_entry] "--name" = None ∧
  name_matches (assign_value (assign_set name_entry) "Alice") "--name"
  = true ∧
  arg_parser_get_value
    {| args := [help_entry; assign_value (assign_set name_entry) "Alice";
                name_again] |} "--name" = Some "Alice" ∧
  arg_parser_is_flag_set
    {| args := [help_entry; assign_value (assign_set name_entry) "Alice";
                name_again] |} "--name" = true ∧
  arg_parser_has
    {| args := [help_entry; assign_value (assign_set name_entry) "Alice";
                name_again] |} "--name" = true.
Proof.
  destruct (C7_lookups_first_match [help_entry]
              (assign_value (assign_set name_entry) "Alice") [name_again]
              "--name" eq_refl eq_refl) as (Hv & Hs & Hh & _).
  do 2 (split; [reflexivity|]).
  split; [exact Hv|]. split; [exact Hs | exact Hh].
Defined.

Lemma C8_value_invariant_witness :
  reachable
    {| args := [help_entry; assign_value (assign_set name_entry) "Alice"] |} ∧
  value
    (assign_value (assign_set name_entry) "Alice") = Some "Alice" ∧
  value_invariant
    [help_entry; assign_value (assign_set name_entry) "Alice"] ∧
  (∃ o, arg_parser_parse
          {| args := [help_entry;
                      assign_value (assign_set name_entry) "Alice"] |}
          ["prog"; "-n"; "Bob"; "-x"] = Some o ∧
        (retval o = 0%Z ∨ retval o = 1%Z) ∧
        value_invariant (args (final o))).
Proof.
  assert (Hr : reachable
    {| args := [help_entry;
                assign_value (assign_set name_entry) "Alice"] |}).
  { apply (reachable_parse demo_parser ["prog"; "-n"; "Alice"]
             {| retval := 1; stdout := [];
                final := {| args := [help_entry;
                  assign_value (assign_set name_entry) "Alice"] |} |}).
    - apply reachable_add, reachable_add, reachable_create.
    - reflexivity. }
  destruct C8_value_invariant as (_ & _ & Hparse & Hreach).
  split; [exact Hr|]. split; [reflexivity|].
  split; [exact (Hreach _ Hr)|].
  exact (Hparse _ ["prog"; "-n"; "Bob"; "-x"] (Hreach _ Hr)).
Defined.

Lemma C9_missing_value_leaves_set_witness :
  arg_parser_parse demo_parser ["prog"; "-n"; "Alice"; "-n"] =
  Some {| retval := 0; stdout := [MissingValue "-n"];
          final := {| args := [help_entry;
            assign_value (assign_set name_entry) "Alice"] |} |} ∧
  arg_parser_is_flag_set
    {| args := [help_entry; assign_value (assign_set name_entry) "Alice"] |}
    "-n" = true.
Proof.
  assert (Hp : arg_parser_parse demo_parser ["prog"; "-n"; "Alice"; "-n"] =
    Some {| retval := 0; stdout := [MissingValue "-n"];
            final := {| args := [help_entry;
              assign_value (assign_set name_entry) "Alice"] |} |})
    by reflexivity.
  split; [exact Hp|].
  destruct (C9_missing_value_leaves_set demo_parser
              ["prog"; "-n"; "Alice"; "-n"] _ "-n" Hp eq_refl)
    as (_ & i & l & j & arg & _ & _ & _ & _ & _ & _
          & _ & _ & _ & _ & _ & _ & Hs & _).
  exact Hs.
Defined.

Lemma C9_value_remains_absent_counterexample :
  arg_parser_parse demo_parser ["prog"; "-n"; "Alice"; "-n"] =
  Some {| retval := 0; stdout := [MissingValue "-n"];
          final := {| args := [help_entry;
            assign_value (assign_set name_entry) "Alice"] |} |} ∧
  arg_parser_get_value
    {| args := [help_entry; assign_value (assign_set name_entry) "Alice"] |}
    "-n" = Some "Alice" ∧
  ∃ taken,
    args long_name_taken = [taken; name_entry] ∧
    arg_parser_parse long_name_taken ["prog"; "-n"] =
    Some {| retval := 0; stdout := [MissingValue "-n"];
            final := {| args := [taken; assign_set name_entry] |} |} ∧
    long_name name_entry = Some "--name" ∧
    arg_parser_is_flag_set {| args := [taken; assign_set name_entry] |}
      "-n" = true ∧
    arg_parser_is_flag_set {| args := [taken; assign_set name_entry] |}
      "--name" = false.
Proof.
  split; [reflexivity|]. split; [reflexivity|].
  eexists. repeat split.
Qed.

Lemma C10_nameless_never_matched_witness :
  nameless anonymous_entry ∧
  name_matches anonymous_entry "" = false ∧
  arg_parser_has {| args := insert_entry 1 anonymous_entry
                              [assign_set help_entry; name_entry] |} "--help"
  = arg_parser_has {| args := [assign_set help_entry; name_entry] |} "--help".
Proof.
  assert (He : nameless anonymous_entry) by (split; reflexivity).
  destruct (C10_nameless_never_matched anonymous_entry He) as (Hm & Hl & _).
  split; [exact He|]. split; [exact (Hm "")|].
  exact (proj2 (proj2 (Hl 1 [assign_set help_entry; name_entry] "--help"))).
Defined.

(** * Further properties of the code *)

(** ** Two runs over registries declared alike *)

Section Lockstep.
Variable P : arg_t → arg_t → arg_t → Prop.
Hypothesis P_declaration : ∀ a b c, P a b c → declaration a = declaration b.
Hypothesis P_assign_set :
  ∀ a b c, P a b c → P (assign_set a) (assign_set b) c.
Hypothesis P_assign_value :
  ∀ a b c v, P a b c → P (assign_value a v) (assign_value b v) c.
Implicit Types (argv : list string) (l m f : list arg_t).

Lemma scan_entries_lockstep argv i l m f :
  Forall3 P l m f →
  scan_related (λ l' m', Forall3 P l' m' f)
    (scan_entries argv i l) (scan_entries argv i m).
Proof.
  induction 1 as [|a b c l m f Habc Hrest IH]; simpl; [done|].
  pose proof (P_declaration _ _ _ Habc) as Hd.
  assert (Hn : name_matches a (argv_at argv i)
               = name_matches b (argv_at argv i)).
  { unfold name_matches. by injection Hd as -> -> _ _ _. }
  assert (Ht : type a = type b) by by injection Hd.
  assert (Hq : required a = required b) by by injection Hd.
  rewrite <- Hn, <- Ht, <- Hq.
  destruct (name_matches a (argv_at argv i)).
  - destruct (arg_type_eqb (type a) ARG_TYPE_VALUE).
    + destruct (S i <? length argv).
      * split; [done|]. constructor; [|done].
        by apply P_assign_value, P_assign_set.
      * destruct (required a); (split; [done|]);
          (constructor; [by apply P_assign_set | done]).
    + split; [done|]. constructor; [by apply P_assign_set | done].
  - destruct (scan_entries argv i l), (scan_entries argv i m);
      simpl in *; try done.
    + destruct IH as [-> ?]. split; [done|]. by constructor.
    + destruct IH as [-> ?]. split; [done|]. by constructor.
Qed.

Lemma loop_body_lockstep argv i l m f :
  Forall3 P l m f →
  iter_related (λ l' m', Forall3 P l' m' f)
    (loop_body argv i l) (loop_body argv i m).
Proof.
  intros H. pose proof (scan_entries_lockstep argv i l m f H) as Hs.
  unfold loop_body.
  destruct (scan_entries argv i l), (scan_entries argv i m);
    simpl in *; try done.
  destruct Hs as [-> ?]. done.
Qed.

Lemma token_loop_lockstep fuel argv i l m f :
  Forall3 P l m f →
  loop_related (λ l' m', Forall3 P l' m' f)
    (token_loop fuel argv i l) (token_loop fuel argv i m).
Proof.
  revert i l m. induction fuel as [|fuel IH]; intros i l m H; simpl.
  - by destruct (i <? length argv).
  - destruct (i <? length argv); [|done].
    pose proof (loop_body_lockstep argv i l m f H) as Hb.
    destruct (loop_body argv i l), (loop_body argv i m);
      simpl in *; try done.
    destruct Hb as [-> ?]. by apply IH.
Qed.
End Lockstep.

Section Reparse.
Implicit Types (argv : list string) (l m f : list arg_t).

Lemma entry_between_eq b c : entry_between c b c → b = c.
Proof.
  intros (Hd & _ & Hs & Hv).
  destruct b, c. simpl in *.
  injection Hd as -> -> -> -> ->.
  destruct Hs as [->| ->], Hv as [->| ->]; done.
Qed.

Lemma Forall3_entry_between_eq m f :
  Forall3 entry_between f m f → m = f.
Proof.
  remember f as f' eqn:Heq in |- * at 1. intros H. revert Heq.
  induction H as [|a b c l m f Habc _ IH]; [done|].
  intros [= -> ->]. f_equal; [by apply entry_between_eq | by apply IH].
Qed.

Lemma Forall3_entry_between_start l f :
  registry_extends l f → Forall3 entry_between l f f.
Proof.
  induction 1 as [|a c l f (Hd & _) _ IH]; constructor; [|done].
  repeat split; auto.
Qed.

Lemma token_loop_again fuel argv i l r :
  token_loop fuel argv i l = Some r →
  token_loop fuel argv i (args (final (finish r))) = Some r.
Proof.
  intros Hr.
  pose proof (token_loop_extends _ _ _ _ _ Hr) as Hext.
  set (f := args (final (finish r))) in *.
  pose proof (token_loop_lockstep entry_between
    ltac:(by intros ??? (? & _))
    ltac:(intros a b c (Hd & Hd' & Hs & Hv);
          split; [exact Hd|]; split; [exact Hd'|]; split; [by left | done])
    ltac:(intros a b c v (Hd & Hd' & Hs & Hv);
          split; [exact Hd|]; split; [exact Hd'|]; split; [done | by left])
    fuel argv i l f f (Forall3_entry_between_start _ _ Hext)) as H.
  rewrite Hr in H.
  destruct (token_loop fuel argv i f) as [[m|d m]|], r as [l'|d' l'];
    simpl in H; try done.
  - assert (f = l') as Hf.
    { subst f. simpl. unfold check_required.
      by destruct (required_check l'). }
    rewrite Hf in H. by apply Forall3_entry_between_eq in H as ->.
  - destruct H as [-> H]. simpl in f. subst f.
    by apply Forall3_entry_between_eq in H as ->.
Qed.
End Reparse.

(** ** Registration, empty input, and what a call keeps *)

Lemma find_arg_app l1 l2 name :
  find_arg (l1 ++ l2) name =
  match find_arg l1 name with
  | Some ja => Some ja
  | None => prod_map (λ j, length l1 + j) id <$> find_arg l2 name
  end.
Proof.
  induction l1 as [|b l1 IH]; simpl.
  - by destruct (find_arg l2 name) as [[??]|].
  - destruct (name_matches b name); [done|]. rewrite IH.
    destruct (find_arg l1 name) as [[??]|]; [done|].
    by destruct (find_arg l2 name) as [[??]|].
Qed.

(** X1.  [arg_parser_add] grows the registry by one entry and changes no
    answer of a lookup for a name that an entry already matched; for a
    name no entry matched, the three lookups still answer null, false
    and false, whether or not the new entry carries that name, because
    the new entry is stored unset and without value. *)
Theorem X1_add_then_lookup parser short long ty req descr name :
  let parser' := arg_parser_add parser short long ty req descr in
  count parser' = S (count parser) ∧
  (∀ j a, find_arg (args parser) name = Some (j, a) →
     find_arg (args parser') name = Some (j, a) ∧
     arg_parser_get_value parser' name = arg_parser_get_value parser name ∧
     arg_parser_is_flag_set parser' name =
       arg_parser_is_flag_set parser name ∧
     arg_parser_has parser' name = arg_parser_has parser name) ∧
  (find_arg (args parser) name = None →
     arg_parser_get_value parser' name = None ∧
     arg_parser_is_flag_set parser' name = false ∧
     arg_parser_has parser' name = false).
Proof.
  intros parser'.
  unfold arg_parser_get_value, arg_parser_is_flag_set, arg_parser_has, count.
  subst parser'. simpl. split; [|split].
  - rewrite length_app. simpl. lia.
  - intros j a Hf.
    rewrite !get_value_in_find, !is_flag_set_in_find, !has_in_find.
    by rewrite find_arg_app, Hf.
  - intros Hf.
    rewrite !get_value_in_find, !is_flag_set_in_find, !has_in_find.
    rewrite find_arg_app, Hf. simpl.
    destruct (name_matches _ name); simpl; [|done].
    unfold has_entry. simpl. by destruct ty.
Qed.

(** X2.  On a registry with no entry, a call succeeds exactly when there
    is no token after the program name; otherwise it returns 0 with
    [UnrecognizedArgument] for the first token, [argv[1]]. *)
Theorem X2_empty_registry argv :
  arg_parser_parse arg_parser_create argv =
  Some match argv !! 1 with
       | None =>
           {| retval := 1; stdout := []; final := arg_parser_create |}
       | Some tok =>
           {| retval := 0; stdout := [UnrecognizedArgument tok];
              final := arg_parser_create |}
       end.
Proof.
  unfold arg_parser_parse. simpl.
  destruct (argv !! 1) as [tok|] eqn:Htok.
  - pose proof (lookup_lt_Some _ _ _ Htok) as Hlen.
    rewrite (parse_from_Stop argv 1 [] (UnrecognizedArgument tok) []);
      [done | done |].
    unfold loop_body, argv_at. simpl. by rewrite Htok.
  - apply lookup_ge_None in Htok. by rewrite parse_from_end.
Qed.

(** X3.  With [argc] at most 1 no entry is written: the outcome is that
    of the check for required entries on the registry as it was, so the
    call fails exactly when some required entry is not set. *)
Theorem X3_no_tokens parser argv :
  length argv ≤ 1 →
  ∃ o, arg_parser_parse parser argv = Some o ∧
    final o = parser ∧
    (retval o = 1%Z ↔
     ∀ a, a ∈ args parser → required a = true → set a = true).
Proof.
  intros Hlen. unfold arg_parser_parse.
  rewrite parse_from_end by done.
  eexists. split; [done|]. unfold check_required.
  destruct (required_check (args parser)) as [d|] eqn:Hc; simpl.
  - split; [by destruct parser|]. split; [done|]. intros Hall.
    apply required_check_Some in Hc
      as (pre & e & post & Hl & _ & Hr & Hs & _).
    rewrite Hall in Hs; [done | | done].
    rewrite Hl. apply elem_of_app. right. left.
  - split; [by destruct parser|]. split; [|done]. intros _ a Ha Hr.
    rewrite required_check_None in Hc. specialize (Hc a Ha).
    unfold missing in Hc. rewrite Hr in Hc. by destruct (set a).
Qed.

Lemma X3_no_tokens_witness :
  length ["prog"] ≤ 1 ∧
  ∃ o, arg_parser_parse demo_optional ["prog"] = Some o ∧
    final o = demo_optional ∧ retval o = 1%Z.
Proof.
  assert (Hlen : length ["prog"] ≤ 1) by (simpl; lia).
  split; [exact Hlen|].
  destruct (X3_no_tokens demo_optional ["prog"] Hlen) as (o & Ho & Hf & Hr).
  exists o. split; [exact Ho|]. split; [exact Hf|].
  apply (proj2 Hr). intros a Ha Hq.
  apply list_elem_of_In in Ha. simpl in Ha.
  destruct Ha as [<-|[<-|[]]]; discriminate Hq.
Defined.

(** X4.  Whatever its outcome, a call leaves the registry with the same
    number of entries, each with the names, kind, required flag and
    description it had; an entry that was set is still set and an entry
    that held a value still holds one. *)
Theorem X4_parse_keeps_declarations parser argv :
  ∃ o, arg_parser_parse parser argv = Some o ∧
    count (final o) = count parser ∧
    ∀ j a, args parser !! j = Some a →
      ∃ b, args (final o) !! j = Some b ∧
        declaration b = declaration a ∧
        (set a = true → set b = true) ∧
        (value a ≠ None → value b ≠ None).
Proof.
  destruct (arg_parser_parse_total parser argv) as [o Ho].
  exists o. split; [done|].
  pose proof (parse_from_extends _ _ _ _ Ho) as Hext.
  split.
  - unfold count. symmetry. by eapply Forall2_length.
  - intros j a Ha.
    destruct (Forall2_lookup_l _ _ _ _ _ Hext Ha) as (b & Hb & Hd & Hs & Hv).
    by exists b.
Qed.

(** X5.  A lookup that reported an option before a call reports it
    after the call too: [arg_parser_is_flag_set] and [arg_parser_has]
    stay true, and a value returned by [arg_parser_get_value] is not
    turned into null. *)
Theorem X5_lookups_never_revert parser argv name :
  ∃ o, arg_parser_parse parser argv = Some o ∧
    (arg_parser_is_flag_set parser name = true →
     arg_parser_is_flag_set (final o) name = true) ∧
    (arg_parser_has parser name = true →
     arg_parser_has (final o) name = true) ∧
    (arg_parser_get_value parser name ≠ None →
     arg_parser_get_value (final o) name ≠ None).
Proof.
  destruct (arg_parser_parse_total parser argv) as [o Ho].
  exists o. split; [done|].
  pose proof (find_arg_extends _ _ name (parse_from_extends _ _ _ _ Ho)) as H.
  unfold arg_parser_is_flag_set, arg_parser_has, arg_parser_get_value.
  rewrite !is_flag_set_in_find, !has_in_find, !get_value_in_find.
  destruct (find_arg (args parser) name) as [[j a]|],
    (find_arg (args (final o)) name) as [[j' b]|]; simpl in *; try done.
  destruct H as (_ & Hd & Hs & Hv).
  split; [done|]. split; [|done].
  unfold has_entry. assert (type a = type b) as <- by by injection Hd.
  destruct (type a); [done|].
  rewrite !bool_decide_eq_true. done.
Qed.

(** ** Outcomes read backwards *)

Section Outcomes.
Implicit Types (argv : list string) (l m : list arg_t).

Lemma token_loop_Unrecognized_inv fuel argv i l tok l' :
  token_loop fuel argv i l =
  Some (LoopReturned0 (UnrecognizedArgument tok) l') →
  ∃ k, scan_reaches argv i l k l' ∧ k < length argv ∧
    tok = argv_at argv k ∧ find_arg l' tok = None.
Proof.
  revert i l. induction fuel as [|fuel IH]; intros i l; simpl.
  - destruct (i <? length argv); discriminate.
  - destruct (i <? length argv) eqn:Hi; [|discriminate].
    apply Nat.ltb_lt in Hi.
    destruct (loop_body argv i l) as [i' l1|d l1] eqn:Hb.
    + intros (k & Hr & ?)%IH. exists k. split; [|done].
      by eapply reaches_next.
    + intros [= -> ->].
      apply loop_body_Stop_inv in Hb
        as [(Hf & [= ->] & ->)|(j & arg & _ & _ & _ & _ & [=] & _)].
      exists i. repeat split; try done. apply reaches_here.
Qed.

Lemma token_loop_Done_inv fuel argv i l l' :
  token_loop fuel argv i l = Some (LoopDone l') →
  ∃ k, scan_reaches argv i l k l' ∧ length argv ≤ k.
Proof.
  revert i l. induction fuel as [|fuel IH]; intros i l; simpl.
  - destruct (i <? length argv) eqn:Hi; [discriminate|].
    apply Nat.ltb_ge in Hi. intros [= <-].
    exists i. split; [apply reaches_here | done].
  - destruct (i <? length argv) eqn:Hi.
    + apply Nat.ltb_lt in Hi.
      destruct (loop_body argv i l) as [i' l1|d l1] eqn:Hb; [|discriminate].
      intros (k & Hr & ?)%IH. exists k. split; [|done].
      by eapply reaches_next.
    + apply Nat.ltb_ge in Hi. intros [= <-].
      exists i. split; [apply reaches_here | done].
Qed.

(** A precise reading of an iteration that goes on. *)
Lemma loop_body_Continue_cases argv i l i' l' :
  loop_body argv i l = Continue i' l' →
  ∃ j arg, find_arg l (argv_at argv i) = Some (j, arg) ∧
    ((type arg = ARG_TYPE_FLAG ∧ i' = S i ∧ l' = <[j := assign_set arg]> l) ∨
     (type arg = ARG_TYPE_VALUE ∧ required arg = false ∧
      length argv ≤ S i ∧ i' = S i ∧ l' = <[j := assign_set arg]> l) ∨
     (type arg = ARG_TYPE_VALUE ∧ S i < length argv ∧ i' = S (S i) ∧
      l' = <[j := assign_value (assign_set arg) (argv_at argv (S i))]> l)).
Proof.
  unfold loop_body. rewrite scan_entries_find.
  destruct (find_arg l (argv_at argv i)) as [[j arg]|]; [|discriminate].
  intros H. exists j, arg. split; [done|].
  destruct (type arg) eqn:Ht.
  - injection H as <- <-. by left.
  - destruct (S i <? length argv) eqn:Hi.
    + injection H as <- <-. apply Nat.ltb_lt in Hi. by right; right.
    + apply Nat.ltb_ge in Hi.
      destruct (required arg); [discriminate|].
      injection H as <- <-. by right; left.
Qed.

Lemma required_values_held_insert l j arg :
  required_values_held l →
  (set arg = true → type arg = ARG_TYPE_VALUE → required arg = true →
   value arg ≠ None) →
  required_values_held (<[j := arg]> l).
Proof.
  intros Hl Harg b [k Hk]%list_elem_of_lookup.
  destruct (decide (j = k)) as [->|Hne].
  - destruct (decide (k < length l)) as [Hlt|Hge].
    + rewrite list_lookup_insert_eq in Hk by done. by simplify_eq.
    + rewrite list_insert_ge in Hk by lia.
      apply Hl, list_elem_of_lookup. eauto.
  - rewrite list_lookup_insert_ne in Hk by done.
    apply Hl, list_elem_of_lookup. eauto.
Qed.

Lemma loop_body_required_values_held argv i l i' l' :
  required_values_held l →
  loop_body argv i l = Continue i' l' →
  required_values_held l'.
Proof.
  intros Hl (j & arg & _ & [(Ht & _ & ->)|[(_ & Hq & _ & _ & ->)|(_ & _ & _ & ->)]])
    %loop_body_Continue_cases;
    apply required_values_held_insert; try done; simpl; congruence.
Qed.

Lemma scan_reaches_required_values_held argv i l k m :
  scan_reaches argv i l k m →
  required_values_held l → required_values_held m.
Proof.
  induction 1 as [|i l i' l' k m _ Hb _ IH]; [done|].
  intros Hl. by eapply IH, loop_body_required_values_held.
Qed.

Lemma fresh_required_values_held l :
  (∀ a, a ∈ l → set a = false) → required_values_held l.
Proof. intros H a Ha Hs. rewrite (H a Ha) in Hs. discriminate. Qed.
End Outcomes.

(** X6.  An option given on the command line is reported by the lookups
    after the call, whatever happens at the tokens that follow it: with
    the loop at a token that resolves to an entry,
    [arg_parser_is_flag_set] on that token is true in the registry the
    call leaves; so is [arg_parser_has] when the entry is a flag, or a
    value with a following token, and then [arg_parser_get_value] is
    not null. *)
Theorem X6_given_option_stays_reported parser argv i l j arg :
  scan_reaches argv 1 (args parser) i l →
  i < length argv →
  find_arg l (argv_at argv i) = Some (j, arg) →
  ∃ o, arg_parser_parse parser argv = Some o ∧
    arg_parser_is_flag_set (final o) (argv_at argv i) = true ∧
    (type arg = ARG_TYPE_FLAG →
     arg_parser_has (final o) (argv_at argv i) = true) ∧
    (type arg = ARG_TYPE_VALUE → S i < length argv →
     arg_parser_has (final o) (argv_at argv i) = true ∧
     arg_parser_get_value (final o) (argv_at argv i) ≠ None).
Proof.
  intros Hr Hi Hf.
  destruct (arg_parser_parse_total parser argv) as [o Ho].
  exists o. split; [done|].
  unfold arg_parser_parse in Ho.
  rewrite (parse_from_reaches _ _ _ _ _ Hr) in Ho.
  pose proof (find_arg_Some_matches _ _ _ _ Hf) as Hm.
  (* the registry after the iteration at [i], and the entry written *)
  assert (∃ a1, registry_extends (<[j := a1]> l) (args (final o)) ∧
            name_matches a1 (argv_at argv i) = true ∧
            set a1 = true ∧ type a1 = type arg ∧
            (type arg = ARG_TYPE_VALUE → S i < length argv →
             value a1 ≠ None)) as (a1 & Hext & Hm1 & Hs1 & Ht1 & Hv1).
  { destruct (loop_body argv i l) as [i' l1|d l1] eqn:Hb.
    - rewrite (parse_from_Continue _ _ _ _ _ Hi Hb) in Ho.
      apply parse_from_extends in Ho.
      apply loop_body_Continue_cases in Hb
        as (j' & arg' & Hf' & [(Ht & _ & ->)|[(Ht & _ & Hl & _ & ->)|(Ht & _ & _ & ->)]]);
        rewrite Hf in Hf'; injection Hf' as <- <-.
      + exists (assign_set arg). repeat split; try done. congruence.
      + exists (assign_set arg). repeat split; try done. intros _ ?. lia.
      + eexists. split; [done|]. repeat split; done.
    - rewrite (parse_from_Stop _ _ _ _ _ Hi Hb) in Ho.
      injection Ho as <-. simpl.
      apply loop_body_Stop_inv in Hb
        as [(Hf' & _)|(j' & arg' & Hf' & _ & _ & Hl & _ & ->)];
        rewrite Hf in Hf'; [discriminate|]. injection Hf' as <- <-.
      exists (assign_set arg).
      split; [apply registry_extends_refl|].
      repeat split; try done. intros _ ?. lia. }
  pose proof (find_arg_insert_same l _ j arg a1 Hf Hm1) as Hf1.
  pose proof (find_arg_extends _ _ (argv_at argv i) Hext) as Hfe.
  rewrite Hf1 in Hfe.
  unfold arg_parser_is_flag_set, arg_parser_has, arg_parser_get_value.
  rewrite is_flag_set_in_find, has_in_find, get_value_in_find.
  destruct (find_arg (args (final o)) (argv_at argv i)) as [[j' b]|];
    [|done].
  destruct Hfe as (_ & Hd & Hs & Hv). simpl.
  assert (type b = type arg) as Htb.
  { rewrite <- Ht1. by injection Hd. }
  split; [auto|]. unfold has_entry. rewrite Htb. split.
  - intros ->. auto.
  - intros Ht Hn. rewrite Ht. rewrite bool_decide_eq_true. auto.
Qed.

Lemma X6_given_option_stays_reported_witness :
  scan_reaches ["prog"; "-n"; "Alice"; "-x"] 1 (args demo_parser)
    1 [help_entry; name_entry] ∧
  1 < length ["prog"; "-n"; "Alice"; "-x"] ∧
  find_arg [help_entry; name_entry] "-n" = Some (1, name_entry) ∧
  ∃ o, arg_parser_parse demo_parser ["prog"; "-n"; "Alice"; "-x"] = Some o ∧
    arg_parser_has (final o) "-n" = true.
Proof.
  assert (Hr : scan_reaches ["prog"; "-n"; "Alice"; "-x"] 1
                 (args demo_parser) 1 [help_entry; name_entry])
    by apply reaches_here.
  assert (Hi : 1 < length ["prog"; "-n"; "Alice"; "-x"]) by (simpl; lia).
  assert (Hn : 2 < length ["prog"; "-n"; "Alice"; "-x"]) by (simpl; lia).
  split; [exact Hr|]. split; [exact Hi|]. split; [reflexivity|].
  destruct (X6_given_option_stays_reported demo_parser
              ["prog"; "-n"; "Alice"; "-x"] 1 [help_entry; name_entry]
              1 name_entry Hr Hi eq_refl) as (o & Ho & _ & _ & Hv).
  exists o. split; [exact Ho|]. exact (proj1 (Hv eq_refl Hn)).
Defined.

(** X7.  Starting from a registry in which every set, required value
    entry holds a value (any registry on which nothing is set yet, such
    as one just built by [arg_parser_add]), a call that returns 1 has
    printed nothing and leaves every required entry set and, if of value
    kind, holding a value: [arg_parser_has] is true for every name that
    resolves to a required entry.  A call that returns 0 has printed
    exactly one diagnostic. *)
Theorem X7_success_means_required_given parser argv :
  required_values_held (args parser) →
  ∃ o, arg_parser_parse parser argv = Some o ∧
    (retval o = 1%Z ↔ stdout o = []) ∧
    (retval o = 0%Z ↔ ∃ d, stdout o = [d]) ∧
    (retval o = 1%Z →
     required_values_held (args (final o)) ∧
     (∀ a, a ∈ args (final o) → required a = true →
        set a = true ∧ has_entry a = true) ∧
     (∀ name j a, find_arg (args (final o)) name = Some (j, a) →
        required a = true → arg_parser_has (final o) name = true)).
Proof.
  intros HJ.
  destruct (arg_parser_parse_total parser argv) as [o Ho].
  exists o. split; [done|].
  unfold arg_parser_parse, parse_from in Ho.
  apply fmap_Some in Ho as ([l|d l] & Hloop & ->); simpl.
  - apply token_loop_Done_inv in Hloop as (k & Hr & _).
    pose proof (scan_reaches_required_values_held _ _ _ _ _ Hr HJ) as HJ'.
    unfold check_required.
    destruct (required_check l) as [d|] eqn:Hc; simpl.
    + repeat split; try done. by exists d.
    + assert (Hall : ∀ a, a ∈ l → required a = true →
                set a = true ∧ has_entry a = true).
      { intros a Ha Hq. rewrite required_check_None in Hc.
        specialize (Hc a Ha). unfold missing in Hc. rewrite Hq in Hc.
        assert (set a = true) as Hs by by destruct (set a).
        split; [done|]. unfold has_entry.
        destruct (type a) eqn:Ht; [done|].
        apply bool_decide_eq_true. by apply HJ'. }
      split; [done|]. split; [split; [done | by intros [? ?]]|].
      intros _. split; [done|]. split; [done|].
      intros name j a Hf Hq. unfold arg_parser_has. simpl.
      rewrite has_in_find, Hf. simpl.
      apply Hall; [|done].
      apply list_elem_of_lookup. exists j. by eapply find_arg_Some_lookup.
  - repeat split; try done. by exists d.
Qed.

Lemma X7_success_means_required_given_witness :
  required_values_held (args demo_parser) ∧
  ∃ o, arg_parser_parse demo_parser ["prog"; "-n"; "Alice"] = Some o ∧
    retval o = 1%Z ∧ arg_parser_has (final o) "--name" = true.
Proof.
  assert (HJ : required_values_held (args demo_parser)).
  { apply fresh_required_values_held. intros a Ha.
    apply list_elem_of_In in Ha. simpl in Ha.
    destruct Ha as [<-|[<-|[]]]; reflexivity. }
  split; [exact HJ|].
  destruct (X7_success_means_required_given demo_parser
              ["prog"; "-n"; "Alice"] HJ) as (o & Ho & _ & _ & Hok).
  exists o. split; [exact Ho|].
  assert (Hret : retval o = 1%Z).
  { assert (Some o = Some (check_required
              [help_entry; assign_value (assign_set name_entry) "Alice"]))
      as [= ->] by (rewrite <- Ho; reflexivity).
    reflexivity. }
  split; [exact Hret|].
  destruct (Hok Hret) as (_ & _ & Hhas).
  assert (Some o = Some (check_required
            [help_entry; assign_value (assign_set name_entry) "Alice"]))
    as [= ->] by (rewrite <- Ho; reflexivity).
  apply (Hhas "--name" 1 (assign_value (assign_set name_entry) "Alice"));
    reflexivity.
Defined.

(** The loop over the tokens prints no [MissingRequiredArgument]. *)
Lemma token_loop_Returned0_diag fuel argv i l d l' :
  token_loop fuel argv i l = Some (LoopReturned0 d l') →
  ∀ n, d ≠ MissingRequiredArgument n.
Proof.
  revert i l. induction fuel as [|fuel IH]; intros i l; simpl.
  - destruct (i <? length argv); discriminate.
  - destruct (i <? length argv); [|discriminate].
    destruct (loop_body argv i l) as [i' l1|d1 l1] eqn:Hb; [apply IH|].
    intros [= -> ->] n ->.
    by apply loop_body_Stop_inv in Hb
      as [(_ & [=] & _)|(? & ? & _ & _ & _ & _ & [=] & _)].
Qed.

(** X8.  A diagnostic [UnrecognizedArgument] names a token that really
    is in [argv] after the program name and that no declared short or
    long name equals; the call then returned 0 and left the registry as
    it was on arrival at that token. *)
Theorem X8_unrecognized_is_undeclared parser argv o tok :
  arg_parser_parse parser argv = Some o →
  stdout o = [UnrecognizedArgument tok] →
  retval o = 0%Z ∧
  find_arg (args parser) tok = None ∧
  (∀ a, a ∈ args parser →
     short_name a ≠ Some tok ∧ long_name a ≠ Some tok) ∧
  ∃ k, 1 ≤ k ∧ argv !! k = Some tok ∧
    scan_reaches argv 1 (args parser) k (args (final o)).
Proof.
  unfold arg_parser_parse, parse_from. intros Ho Hout.
  apply fmap_Some in Ho as ([l'|d l'] & Hloop & ->); simpl in *.
  { unfold check_required in Hout.
    destruct (required_check l') as [d|] eqn:Hc; simpl in Hout; [|done].
    apply required_check_Some in Hc as (? & ? & ? & _ & _ & _ & _ & ->).
    discriminate. }
  injection Hout as ->. split; [done|].
  apply token_loop_Unrecognized_inv in Hloop as (k & Hr & Hk & -> & Hnone).
  assert (Hnone' : find_arg (args parser) (argv_at argv k) = None).
  { eapply find_arg_None_names; [|done]. by eapply scan_reaches_names. }
  split; [done|]. split.
  - intros a Ha. rewrite find_arg_None in Hnone'. specialize (Hnone' a Ha).
    split; intros Heq;
      (assert (name_matches a (argv_at argv k) = true) as Hm
         by (apply name_matches_true; auto)); congruence.
  - exists k. split; [by eapply scan_reaches_le|]. split; [|done].
    unfold argv_at. by destruct (lookup_lt_is_Some_2 argv k Hk) as [v ->].
Qed.

Lemma X8_unrecognized_is_undeclared_witness :
  arg_parser_parse demo_parser ["prog"; "--help"; "-x"] =
  Some {| retval := 0; stdout := [UnrecognizedArgument "-x"];
          final := {| args := [assign_set help_entry; name_entry] |} |} ∧
  find_arg (args demo_parser) "-x" = None.
Proof.
  assert (Hp : arg_parser_parse demo_parser ["prog"; "--help"; "-x"] =
    Some {| retval := 0; stdout := [UnrecognizedArgument "-x"];
            final := {| args := [assign_set help_entry; name_entry] |} |})
    by reflexivity.
  split; [exact Hp|].
  exact (proj1 (proj2 (X8_unrecognized_is_undeclared demo_parser
                         ["prog"; "--help"; "-x"] _ "-x" Hp eq_refl))).
Defined.

(** X9.  A diagnostic [MissingRequiredArgument] is only printed once the
    loop has gone through every token without stopping; the name it
    carries is the [long_name] pointer of the first entry, in registry
    order, that is required and not set in the registry the call
    leaves. *)
Theorem X9_missing_required_after_all_tokens parser argv o n :
  arg_parser_parse parser argv = Some o →
  stdout o = [MissingRequiredArgument n] →
  retval o = 0%Z ∧
  (∃ k, length argv ≤ k ∧
     scan_reaches argv 1 (args parser) k (args (final o))) ∧
  ∃ pre e post, args (final o) = pre ++ e :: post ∧
    (∀ b, b ∈ pre → missing b = false) ∧
    required e = true ∧ set e = false ∧ long_name e = n.
Proof.
  unfold arg_parser_parse, parse_from. intros Ho Hout.
  apply fmap_Some in Ho as ([l'|d l'] & Hloop & ->); simpl in *.
  - unfold check_required in *.
    destruct (required_check l') as [d|] eqn:Hc; simpl in *; [|done].
    injection Hout as ->. split; [done|].
    apply token_loop_Done_inv in Hloop as (k & Hr & Hk).
    split; [by exists k|].
    apply required_check_Some in Hc
      as (pre & e & post & -> & Hpre & Hq & Hs & [= ->]).
    by exists pre, e, post.
  - injection Hout as ->.
    by destruct (token_loop_Returned0_diag _ _ _ _ _ _ Hloop n).
Qed.

Lemma X9_missing_required_after_all_tokens_witness :
  arg_parser_parse demo_parser ["prog"; "--help"] =
  Some {| retval := 0; stdout := [MissingRequiredArgument (Some "--name")];
          final := {| args := [assign_set help_entry; name_entry] |} |} ∧
  ∃ k, length ["prog"; "--help"] ≤ k ∧
    scan_reaches ["prog"; "--help"] 1 (args demo_parser) k
      [assign_set help_entry; name_entry].
Proof.
  assert (Hp : arg_parser_parse demo_parser ["prog"; "--help"] =
    Some {| retval := 0;
            stdout := [MissingRequiredArgument (Some "--name")];
            final := {| args := [assign_set help_entry; name_entry] |} |})
    by reflexivity.
  split; [exact Hp|].
  exact (proj1 (proj2 (X9_missing_required_after_all_tokens demo_parser
                         ["prog"; "--help"] _ (Some "--name") Hp eq_refl))).
Defined.

(** X10.  Calling [arg_parser_parse] again with the same [argv] on the
    registry a call has left gives the same return value, the same
    diagnostic and the same registry: nothing is reset between calls,
    and a second identical call finds nothing new to write. *)
Theorem X10_reparse_same_argv parser argv :
  ∃ o, arg_parser_parse parser argv = Some o ∧
       arg_parser_parse (final o) argv = Some o.
Proof.
  destruct (arg_parser_parse_total parser argv) as [o Ho].
  exists o. split; [done|].
  unfold arg_parser_parse, parse_from in *.
  apply fmap_Some in Ho as (r & Hr & ->).
  by rewrite (token_loop_again _ _ _ _ _ Hr).
Qed.

(** X11.  Whether the loop over the tokens stops, at which token and
    with which diagnostic depends on the declarations alone: on two
    registries whose entries are declared alike, whatever is set or
    stored in them, the two calls print the same [UnrecognizedArgument]
    or [MissingValue], or neither prints one, and both leave registries
    that are still declared alike. *)
Theorem X11_token_errors_from_declarations l m argv :
  declaration <$> l = declaration <$> m →
  ∃ o o',
    arg_parser_parse {| args := l |} argv = Some o ∧
    arg_parser_parse {| args := m |} argv = Some o' ∧
    declaration <$> args (final o) = declaration <$> args (final o') ∧
    ∀ d, (∀ n, d ≠ MissingRequiredArgument n) →
      (stdout o = [d] ↔ stdout o' = [d]).
Proof.
  intros Hd.
  assert (H3 : Forall3 (λ a b _, declaration a = declaration b) l m l).
  { revert m Hd. induction l as [|a l IH]; intros [|b m]; try done.
    - constructor.
    - intros Hd. simpl in Hd.
      pose proof (f_equal head Hd) as Hh. pose proof (f_equal tail Hd) as Ht.
      simpl in Hh, Ht. constructor; [congruence | by apply IH]. }
  pose proof (token_loop_lockstep (λ a b _, declaration a = declaration b)
    ltac:(done) ltac:(intros a b c H; exact H)
    ltac:(intros a b c v H; exact H)
    (length argv - 1) argv 1 l m l H3) as H.
  unfold arg_parser_parse, parse_from. simpl.
  destruct (token_loop_total (length argv - 1) argv 1 l) as [r Hr]; [lia|].
  destruct (token_loop_total (length argv - 1) argv 1 m) as [r' Hr']; [lia|].
  rewrite Hr, Hr' in *. simpl in H.
  exists (finish r), (finish r'). split; [done|]. split; [done|].
  assert (Hdecl : ∀ l1 m1 f,
    Forall3 (λ a b _ : arg_t, declaration a = declaration b) l1 m1 f →
    declaration <$> l1 = declaration <$> m1).
  { intros l1 m1 f. induction 1; simpl; [done | by f_equal]. }
  destruct r as [l1|d1 l1], r' as [m1|d1' m1]; simpl in H; try done.
  - simpl. unfold check_required. split.
    + apply Hdecl in H.
      by destruct (required_check l1), (required_check m1).
    + intros d Hnot.
      destruct (required_check l1) as [d1|] eqn:H1,
        (required_check m1) as [d2|] eqn:H2; simpl; split; intros [=]; subst.
      * apply required_check_Some in H1 as (? & e & ? & _ & _ & _ & _ & ->).
        by destruct (Hnot (long_name e)).
      * apply required_check_Some in H2 as (? & e & ? & _ & _ & _ & _ & ->).
        by destruct (Hnot (long_name e)).
      * apply required_check_Some in H1 as (? & e & ? & _ & _ & _ & _ & ->).
        by destruct (Hnot (long_name e)).
      * apply required_check_Some in H2 as (? & e & ? & _ & _ & _ & _ & ->).
        by destruct (Hnot (long_name e)).
  - destruct H as [-> H]. simpl. split; [by eapply Hdecl | done].
Qed.

Lemma X11_token_errors_from_declarations_witness :
  declaration <$> [help_entry; name_entry] =
  declaration <$> [assign_set help_entry;
                   assign_value (assign_set name_entry) "Bob"] ∧
  ∃ o o',
    arg_parser_parse {| args := [help_entry; name_entry] |}
      ["prog"; "-x"] = Some o ∧
    arg_parser_parse
      {| args := [assign_set help_entry;
                  assign_value (assign_set name_entry) "Bob"] |}
      ["prog"; "-x"] = Some o' ∧
    (stdout o = [UnrecognizedArgument "-x"] ↔
     stdout o' = [UnrecognizedArgument "-x"]).
Proof.
  split; [reflexivity|].
  destruct (X11_token_errors_from_declarations
              [help_entry; name_entry]
              [assign_set help_entry;
               assign_value (assign_set name_entry) "Bob"]
              ["prog"; "-x"] eq_refl) as (o & o' & Ho & Ho' & _ & Hd).
  exists o, o'. split; [exact Ho|]. split; [exact Ho'|].
  apply Hd. intros n. discriminate.
Defined.

(** ** Help output *)

Section Help.
Implicit Types (l : list arg_t) (e : arg_t).

Lemma help_lines_app l1 l2 :
  help_lines (l1 ++ l2) = help_lines l1 ++ help_lines l2.
Proof.
  induction l1 as [|a l1 IH]; simpl; [done|].
  destruct (help_line a); simpl; by rewrite IH.
Qed.

Lemma help_line_None e : help_line e = None ↔ nameless e.
Proof.
  unfold help_line, nameless.
  destruct (short_name e), (long_name e); split; (done || by intros [??]).
Qed.

Lemma help_lines_length l : length (help_lines l) ≤ length l.
Proof.
  induction l as [|a l IH]; simpl; [done|].
  destruct (help_line a); simpl; lia.
Qed.

Lemma help_lines_full l :
  length (help_lines l) = length l ↔ ∀ a, a ∈ l → ¬ nameless a.
Proof.
  induction l as [|a l IH]; simpl.
  - split; [by intros _ ? ?%elem_of_nil | done].
  - pose proof (help_lines_length l) as Hle.
    destruct (help_line a) as [h|] eqn:Ha; simpl.
    + split.
      * intros [= Hl] b [->|Hb]%elem_of_cons.
        -- intros Hn%help_line_None. congruence.
        -- by apply IH.
      * intros H. f_equal. apply IH. intros b Hb. apply H. by right.
    + split; [lia|]. intros H. destruct (H a); [left|].
      by apply help_line_None.
Qed.
End Help.

(** X12.  What [arg_parser_print_help] prints does not depend on what
    has been parsed: after any call of [arg_parser_parse], successful or
    not, it prints the same lines as before. *)
Theorem X12_help_unchanged_by_parse parser argv :
  ∃ o, arg_parser_parse parser argv = Some o ∧
       arg_parser_print_help (final o) = arg_parser_print_help parser.
Proof.
  destruct (arg_parser_parse_total parser argv) as [o Ho].
  exists o. split; [done|]. unfold arg_parser_print_help.
  f_equal. symmetry. apply help_lines_extends.
  by eapply parse_from_extends.
Qed.

(** X13.  [arg_parser_add] leaves the lines already printed by
    [arg_parser_print_help] as they are and appends at most one: the
    line with both names when both are given, the line with the one name
    given otherwise, and no line at all when both names are null.  The
    kind is printed as [Flag] or [Key=Value]. *)
Theorem X13_add_appends_help_line parser short long ty req descr :
  let label :=
    match ty with ARG_TYPE_FLAG => "Flag" | ARG_TYPE_VALUE => "Key=Value" end in
  arg_parser_print_help (arg_parser_add parser short long ty req descr) =
  arg_parser_print_help parser ++
  match short, long with
  | Some s, Some l => [HelpBoth s l descr label]
  | Some n, None | None, Some n => [HelpOne n descr label]
  | None, None => []
  end.
Proof.
  unfold arg_parser_print_help, arg_parser_add. simpl.
  rewrite help_lines_app. simpl. unfold help_line, type_str. simpl.
  by destruct short, long, ty.
Qed.

(** X14.  [arg_parser_print_help] prints the header and then at most one
    line per entry, in registry order; it prints one line for every entry
    exactly when no entry lacks both names, because an entry with
    neither name is passed over: the output with such an entry in the
    registry is the output without it. *)
Theorem X14_help_skips_nameless parser :
  length (arg_parser_print_help parser) ≤ S (count parser) ∧
  (length (arg_parser_print_help parser) = S (count parser) ↔
   ∀ a, a ∈ args parser → ¬ nameless a) ∧
  (∀ n e, nameless e →
     arg_parser_print_help {| args := insert_entry n e (args parser) |} =
     arg_parser_print_help parser).
Proof.
  unfold arg_parser_print_help, count. simpl. split; [|split].
  - pose proof (help_lines_length (args parser)). lia.
  - rewrite <- help_lines_full. split; [by intros [= ?] | by intros ->].
  - intros n e He%help_line_None. unfold insert_entry.
    rewrite help_lines_app. simpl. rewrite He, <- help_lines_app.
    by rewrite take_drop.
Qed.

(** ** Lookups on registries built through the interface *)

Lemma reachable_value_invariant parser :
  reachable parser → value_invariant (args parser).
Proof.
  induction 1 as [|parser short long ty req descr _ IH|parser argv o _ IH Ho].
  - apply value_invariant_nil.
  - by apply value_invariant_snoc.
  - by eapply arg_parser_parse_value_invariant.
Qed.

(** X15.  On a registry built by [arg_parser_create], [arg_parser_add]
    and [arg_parser_parse], the three lookups agree with each other: a
    name for which [arg_parser_get_value] returns a value is reported by
    [arg_parser_has] and by [arg_parser_is_flag_set]; a name reported by
    [arg_parser_has] is reported by [arg_parser_is_flag_set]; and
    [arg_parser_get_value] returns null for a name that resolves to a
    flag. *)
Theorem X15_lookups_agree parser name :
  reachable parser →
  (arg_parser_get_value parser name ≠ None →
   arg_parser_has parser name = true ∧
   arg_parser_is_flag_set parser name = true) ∧
  (arg_parser_has parser name = true →
   arg_parser_is_flag_set parser name = true) ∧
  (∀ j a, find_arg (args parser) name = Some (j, a) →
     type a = ARG_TYPE_FLAG → arg_parser_get_value parser name = None).
Proof.
  intros Hinv%reachable_value_invariant.
  unfold arg_parser_get_value, arg_parser_has, arg_parser_is_flag_set.
  rewrite get_value_in_find, has_in_find, is_flag_set_in_find.
  destruct (find_arg (args parser) name) as [[j a]|] eqn:Hf; simpl.
  - assert (Ha : a ∈ args parser).
    { apply list_elem_of_lookup. exists j. by eapply find_arg_Some_lookup. }
    specialize (Hinv a Ha). unfold has_entry. split; [|split].
    + intros Hv. destruct (Hinv Hv) as [-> ->].
      split; [|done]. by apply bool_decide_eq_true.
    + destruct (type a); [done|].
      intros Hv%bool_decide_eq_true. by apply Hinv.
    + intros ? ? [= <- <-] Ht.
      destruct (value a) eqn:Hv; [|done].
      destruct Hinv as [Ht' _]; [done | congruence].
  - by repeat split.
Qed.

Lemma X15_lookups_agree_witness :
  reachable
    {| args := [help_entry; assign_value (assign_set name_entry) "Alice"] |} ∧
  arg_parser_has
    {| args := [help_entry; assign_value (assign_set name_entry) "Alice"] |}
    "-n" = true ∧
  arg_parser_is_flag_set
    {| args := [help_entry; assign_value (assign_set name_entry) "Alice"] |}
    "-n" = true.
Proof.
  assert (Hr : reachable
    {| args := [help_entry;
                assign_value (assign_set name_entry) "Alice"] |}).
  { apply (reachable_parse demo_parser ["prog"; "-n"; "Alice"]
             {| retval := 1; stdout := [];
                final := {| args := [help_entry;
                  assign_value (assign_set name_entry) "Alice"] |} |}).
    - apply reachable_add, reachable_add, reachable_create.
    - reflexivity. }
  split; [exact Hr|].
  apply (proj1 (X15_lookups_agree _ "-n" Hr)). discriminate.
Defined.

(** ** Entries no token can resolve to *)

Section Shadowed.
Implicit Types (argv : list string) (l m : list arg_t) (e : arg_t).

Lemma find_arg_index_names l m s :
  entry_names <$> l = entry_names <$> m →
  fst <$> find_arg l s = fst <$> find_arg m s.
Proof.
  revert m. induction l as [|a l IH]; intros [|b m]; try done.
  intros [= Hs Hl Hrest]. simpl.
  unfold name_matches. rewrite Hs, Hl.
  destruct (guarded_eq (short_name b) s || guarded_eq (long_name b) s);
    [done|].
  specialize (IH m Hrest).
  destruct (find_arg l s) as [[??]|], (find_arg m s) as [[??]|];
    by simplify_eq/=.
Qed.

Lemma name_shadowed_names l m k ptr :
  entry_names <$> l = entry_names <$> m →
  name_shadowed l k ptr = name_shadowed m k ptr.
Proof.
  intros H. destruct ptr as [s|]; simpl; [|done].
  pose proof (find_arg_index_names l m s H) as Hi.
  destruct (find_arg l s) as [[??]|], (find_arg m s) as [[??]|];
    by simplify_eq/=.
Qed.

(** A token an entry matches resolves before [k] when the entry is
    shadowed at [k]. *)
Lemma shadowed_resolves_before l k e tok j arg :
  shadowed l k e = true →
  name_matches e tok = true →
  find_arg l tok = Some (j, arg) → j < k.
Proof.
  unfold shadowed. intros [Hs Hl]%andb_true_iff Hm Hf.
  apply name_matches_true in Hm as [Hn|Hn]; rewrite Hn in *; simpl in *;
    rewrite Hf in *; by apply Nat.ltb_lt.
Qed.

Lemma loop_body_shadowed argv i l k e :
  l !! k = Some e → shadowed l k e = true →
  match loop_body argv i l with
  | Continue _ l' | Stop _ l' => l' !! k = Some e ∧ shadowed l' k e = true
  end.
Proof.
  intros Hk Hsh.
  assert (Hkeep : ∀ j arg arg',
    find_arg l (argv_at argv i) = Some (j, arg) →
    entry_names arg' = entry_names arg →
    <[j := arg']> l !! k = Some e ∧ shadowed (<[j := arg']> l) k e = true).
  { intros j arg arg' Hf Hn.
    assert (j ≠ k) as Hne.
    { intros ->. pose proof (find_arg_Some_lookup _ _ _ _ Hf) as Hk'.
      rewrite Hk in Hk'. injection Hk' as <-.
      pose proof (find_arg_Some_matches _ _ _ _ Hf) as Hm.
      pose proof (shadowed_resolves_before _ _ _ _ _ _ Hsh Hm Hf). lia. }
    split; [by rewrite list_lookup_insert_ne|].
    rewrite <- Hsh. unfold shadowed.
    by rewrite !(name_shadowed_names (<[j := arg']> l) l)
      by (eapply entry_names_insert; [by eapply find_arg_Some_lookup | done]). }
  destruct (loop_body argv i l) as [i' l'|d l'] eqn:Hb.
  - apply loop_body_Continue_inv in Hb
      as (j & arg & Hf & [[_ ->]|(_ & _ & _ & ->)]); by eapply Hkeep.
  - apply loop_body_Stop_inv in Hb
      as [(_ & _ & ->)|(j & arg & Hf & _ & _ & _ & _ & ->)]; [done|].
    by eapply Hkeep.
Qed.

Lemma token_loop_shadowed fuel argv i l k e r :
  l !! k = Some e → shadowed l k e = true →
  token_loop fuel argv i l = Some r →
  args (final (finish r)) !! k = Some e.
Proof.
  revert i l. induction fuel as [|fuel IH]; intros i l Hk Hsh; simpl.
  - destruct (i <? length argv); [discriminate|].
    intros [= <-]. simpl. unfold check_required.
    by destruct (required_check l).
  - destruct (i <? length argv).
    + pose proof (loop_body_shadowed argv i l k e Hk Hsh) as Hb.
      destruct (loop_body argv i l) as [i' l'|d l'].
      * destruct Hb. by apply IH.
      * intros [= <-]. by destruct Hb.
    + intros [= <-]. simpl. unfold check_required.
      by destruct (required_check l).
Qed.
End Shadowed.

(** X16.  An entry that no token can resolve to, each of its names being
    null or matched first by an entry registered before it, is never
    written by [arg_parser_parse]; so when such an entry is required and
    not set, every call returns 0, whatever [argv] is. *)
Theorem X16_shadowed_entry_never_written parser argv k e :
  args parser !! k = Some e →
  shadowed (args parser) k e = true →
  ∃ o, arg_parser_parse parser argv = Some o ∧
    args (final o) !! k = Some e ∧
    (required e = true → set e = false → retval o = 0%Z).
Proof.
  intros Hk Hsh.
  destruct (arg_parser_parse_total parser argv) as [o Ho].
  exists o. split; [done|].
  unfold arg_parser_parse, parse_from in Ho.
  apply fmap_Some in Ho as (r & Hr & ->).
  pose proof (token_loop_shadowed _ _ _ _ _ _ _ Hk Hsh Hr) as Hfin.
  split; [done|]. intros Hq Hs.
  destruct r as [l|d l]; simpl in *; [|done].
  unfold check_required in *.
  destruct (required_check l) as [d|] eqn:Hc; simpl in *; [done|].
  rewrite required_check_None in Hc.
  assert (e ∈ l) as He by (apply list_elem_of_lookup; eauto).
  specialize (Hc e He). unfold missing in Hc. by rewrite Hq, Hs in Hc.
Qed.

Lemma X16_shadowed_entry_never_written_witness :
  args {| args := [name_entry; name_again; anonymous_entry] |} !! 1
    = Some name_again ∧
  shadowed [name_entry; name_again; anonymous_entry] 1 name_again = true ∧
  ∃ o, arg_parser_parse {| args := [name_entry; name_again; anonymous_entry] |}
         ["prog"; "--name"; "Alice"; "--name"; "Bob"] = Some o ∧
    args (final o) !! 1 = Some name_again.
Proof.
  split; [reflexivity|]. split; [reflexivity|].
  destruct (X16_shadowed_entry_never_written
              {| args := [name_entry; name_again; anonymous_entry] |}
              ["prog"; "--name"; "Alice"; "--name"; "Bob"] 1 name_again
              eq_refl eq_refl) as (o & Ho & Hk & _).
  exists o. split; [exact Ho | exact Hk].
Defined.

(** X17.  A value option given as the last two tokens of [argv] is read
    back: when the loop is at the last token but one, which resolves to
    a value-kind entry, the call goes on to the check for required
    entries, and in the registry it leaves [arg_parser_get_value]
    returns the last token for every name that resolves to that entry,
    for which [arg_parser_has] is true. *)
Theorem X17_last_value_read_back parser argv i l j arg v :
  scan_reaches argv 1 (args parser) i l →
  S (S i) = length argv →
  find_arg l (argv_at argv i) = Some (j, arg) →
  type arg = ARG_TYPE_VALUE →
  argv !! S i = Some v →
  ∃ o, arg_parser_parse parser argv = Some o ∧
    o = check_required (<[j := assign_value (assign_set arg) v]> l) ∧
    ∀ name, find_arg l name = Some (j, arg) →
      arg_parser_get_value (final o) name = Some v ∧
      arg_parser_has (final o) name = true ∧
      arg_parser_is_flag_set (final o) name = true.
Proof.
  intros Hr Hlen Hf Ht Hv.
  assert (Hb : loop_body argv i l =
    Continue (S (S i)) (<[j := assign_value (assign_set arg) v]> l)).
  { rewrite (loop_body_value _ _ _ _ _ Hf Ht) by lia.
    unfold argv_at. by rewrite Hv. }
  eexists. split.
  { apply (arg_parser_parse_required _ _ (S (S i))); [|lia].
    eapply scan_reaches_snoc; [done | lia | done]. }
  split; [done|]. intros name Hname.
  assert (Hf' : find_arg (<[j := assign_value (assign_set arg) v]> l) name
                = Some (j, assign_value (assign_set arg) v)).
  { apply (find_arg_insert_same l _ j arg); [done|].
    rewrite name_matches_assign_value, name_matches_assign_set.
    by eapply find_arg_Some_matches. }
  unfold arg_parser_get_value, arg_parser_has, arg_parser_is_flag_set.
  assert (args (final (check_required
            (<[j := assign_value (assign_set arg) v]> l)))
          = <[j := assign_value (assign_set arg) v]> l) as ->.
  { unfold check_required. by destruct (required_check _). }
  rewrite get_value_in_find, has_in_find, is_flag_set_in_find, Hf'. simpl.
  repeat split. unfold has_entry. simpl. by rewrite Ht.
Qed.

Lemma X17_last_value_read_back_witness :
  scan_reaches ["prog"; "--help"; "--name"; "Alice"] 1 (args demo_parser)
    2 [assign_set help_entry; name_entry] ∧
  4 = length ["prog"; "--help"; "--name"; "Alice"] ∧
  find_arg [assign_set help_entry; name_entry] "--name"
    = Some (1, name_entry) ∧
  find_arg [assign_set help_entry; name_entry] "-n"
    = Some (1, name_entry) ∧
  ∃ o, arg_parser_parse demo_parser ["prog"; "--help"; "--name"; "Alice"]
         = Some o ∧
    arg_parser_get_value (final o) "-n" = Some "Alice".
Proof.
  assert (Hr : scan_reaches ["prog"; "--help"; "--name"; "Alice"] 1
                 (args demo_parser) 2 [assign_set help_entry; name_entry]).
  { reach_step. apply reaches_here. }
  split; [exact Hr|]. do 3 (split; [reflexivity|]).
  destruct (X17_last_value_read_back demo_parser
              ["prog"; "--help"; "--name"; "Alice"] 2
              [assign_set help_entry; name_entry] 1 name_entry "Alice"
              Hr eq_refl eq_refl eq_refl eq_refl) as (o & Ho & _ & Hn).
  exists o. split; [exact Ho|].
  exact (proj1 (Hn "-n" eq_refl)).
Defined.

(** ** Entries whose names do not occur, and the text printed *)

Section Untouched.
Implicit Types (argv : list string) (l : list arg_t).

Lemma loop_body_untouched argv i l j a :
  l !! j = Some a →
  name_matches a (argv_at argv i) = false →
  match loop_body argv i l with
  | Continue _ l' | Stop _ l' => l' !! j = Some a
  end.
Proof.
  intros Hj Hm.
  assert (Hkeep : ∀ j0 arg arg',
    find_arg l (argv_at argv i) = Some (j0, arg) →
    <[j0 := arg']> l !! j = Some a).
  { intros j0 arg arg' Hf.
    assert (j0 ≠ j) as Hne.
    { intros ->. pose proof (find_arg_Some_lookup _ _ _ _ Hf) as Hj'.
      rewrite Hj in Hj'. injection Hj' as <-.
      pose proof (find_arg_Some_matches _ _ _ _ Hf). congruence. }
    by rewrite list_lookup_insert_ne. }
  destruct (loop_body argv i l) as [i' l'|d l'] eqn:Hb.
  - apply loop_body_Continue_inv in Hb
      as (j0 & arg & Hf & [[_ ->]|(_ & _ & _ & ->)]); by eapply Hkeep.
  - apply loop_body_Stop_inv in Hb
      as [(_ & _ & ->)|(j0 & arg & Hf & _ & _ & _ & _ & ->)]; [done|].
    by eapply Hkeep.
Qed.

Lemma token_loop_untouched fuel argv i l j a r :
  1 ≤ i →
  l !! j = Some a →
  (∀ k tok, 1 ≤ k → argv !! k = Some tok → name_matches a tok = false) →
  token_loop fuel argv i l = Some r →
  args (final (finish r)) !! j = Some a.
Proof.
  intros Hi Hj Hno. revert i l Hi Hj.
  induction fuel as [|fuel IH]; intros i l Hi Hj; simpl.
  - destruct (i <? length argv); [discriminate|].
    intros [= <-]. simpl. unfold check_required.
    by destruct (required_check l).
  - destruct (i <? length argv) eqn:Hlt.
    + apply Nat.ltb_lt in Hlt.
      assert (Hm : name_matches a (argv_at argv i) = false).
      { destruct (lookup_lt_is_Some_2 argv i Hlt) as [tok Htok].
        unfold argv_at. rewrite Htok. simpl. by eapply Hno. }
      pose proof (loop_body_untouched argv i l j a Hj Hm) as Hb.
      destruct (loop_body argv i l) as [i' l'|d l'] eqn:Hbody.
      * apply loop_body_advances in Hbody. apply IH; [lia | done].
      * by intros [= <-].
    + intros [= <-]. simpl. unfold check_required.
      by destruct (required_check l).
Qed.
End Untouched.

(** X18.  [arg_parser_parse] writes an entry only when one of its names
    occurs in [argv] after the program name: an entry none of whose
    names equals any of the tokens [argv[1..]] is, after the call,
    exactly as it was before. *)
Theorem X18_entry_untouched_without_its_name parser argv j a :
  args parser !! j = Some a →
  (∀ k tok, 1 ≤ k → argv !! k = Some tok →
     short_name a ≠ Some tok ∧ long_name a ≠ Some tok) →
  ∃ o, arg_parser_parse parser argv = Some o ∧
       args (final o) !! j = Some a.
Proof.
  intros Hj Hno.
  destruct (arg_parser_parse_total parser argv) as [o Ho].
  exists o. split; [done|].
  unfold arg_parser_parse, parse_from in Ho.
  apply fmap_Some in Ho as (r & Hr & ->).
  eapply token_loop_untouched; [| done | | done]; [lia|].
  intros k tok Hk Htok. destruct (Hno k tok Hk Htok) as [Hs Hl].
  destruct (name_matches a tok) eqn:Hm; [|done].
  apply name_matches_true in Hm as [?|?]; congruence.
Qed.

Lemma X18_entry_untouched_without_its_name_witness :
  args demo_parser !! 0 = Some help_entry ∧
  ∃ o, arg_parser_parse demo_parser ["--help"; "-n"; "Alice"] = Some o ∧
       args (final o) !! 0 = Some help_entry.
Proof.
  split; [reflexivity|].
  apply (X18_entry_untouched_without_its_name demo_parser
           ["--help"; "-n"; "Alice"] 0 help_entry eq_refl).
  intros k tok Hk Htok.
  destruct k as [|[|[|k]]]; simpl in Htok; [lia | | |discriminate Htok];
    injection Htok as <-; split; discriminate.
Defined.

Lemma missing_required_diag_inv parser argv o n :
  arg_parser_parse parser argv = Some o →
  stdout o = [MissingRequiredArgument n] →
  ∃ pre e post, args (final o) = pre ++ e :: post ∧
    required e = true ∧ long_name e = n.
Proof.
  unfold arg_parser_parse, parse_from. intros Ho Hout.
  apply fmap_Some in Ho as ([l'|d l'] & Hloop & ->); simpl in *.
  - unfold check_required in *.
    destruct (required_check l') as [d|] eqn:Hc; simpl in *; [|done].
    injection Hout as ->.
    apply required_check_Some in Hc
      as (pre & e & post & -> & _ & Hq & _ & [= ->]).
    by exists pre, e, post.
  - injection Hout as ->.
    by destruct (token_loop_Returned0_diag _ _ _ _ _ _ Hloop n).
Qed.

(** X19.  When every required entry has a long name, every diagnostic a
    call prints has a defined text: the [%s] of the three [printf] calls
    is never handed a null pointer. *)
Theorem X19_diagnostics_defined parser argv :
  (∀ a, a ∈ args parser → required a = true → long_name a ≠ None) →
  ∃ o, arg_parser_parse parser argv = Some o ∧
       ∀ d, d ∈ stdout o → printed_line d ≠ None.
Proof.
  intros Hlong.
  destruct (arg_parser_parse_total parser argv) as [o Ho].
  exists o. split; [done|].
  pose proof (parse_from_extends _ _ _ _ Ho) as Hext.
  intros d Hd. destruct d as [tok|tok|[n|]]; try done.
  exfalso.
  assert (stdout o = [MissingRequiredArgument None]) as Hout.
  { unfold arg_parser_parse, parse_from in Ho.
    apply fmap_Some in Ho as ([l|d l] & _ & ->); simpl in *.
    - unfold check_required in *.
      destruct (required_check l); simpl in *;
        [by apply list_elem_of_singleton in Hd as <- | by apply elem_of_nil in Hd].
    - by apply list_elem_of_singleton in Hd as <-. }
  destruct (missing_required_diag_inv _ _ _ _ Ho Hout)
    as (pre & e & post & Hfin & Hq & Hn).
  assert (Hk : args (final o) !! length pre = Some e).
  { rewrite Hfin. by rewrite list_lookup_middle. }
  destruct (Forall2_lookup_r _ _ _ _ _ Hext Hk) as (a & Ha & Hdecl & _).
  apply (Hlong a).
  - apply list_elem_of_lookup. eauto.
  - assert (required a = required e) as -> by by injection Hdecl. done.
  - assert (long_name a = long_name e) as -> by by injection Hdecl. done.
Qed.

Lemma X19_diagnostics_defined_witness :
  (∀ a, a ∈ args demo_parser → required a = true → long_name a ≠ None) ∧
  ∃ o, arg_parser_parse demo_parser ["prog"] = Some o ∧
       ∀ d, d ∈ stdout o → printed_line d ≠ None.
Proof.
  assert (H : ∀ a, a ∈ args demo_parser → required a = true →
                long_name a ≠ None).
  { intros a Ha _. apply list_elem_of_In in Ha. simpl in Ha.
    destruct Ha as [<-|[<-|[]]]; discriminate. }
  split; [exact H|].
  exact (X19_diagnostics_defined demo_parser ["prog"] H).
Defined.

(** X20.  Every line [arg_parser_print_help] prints has a defined text
    exactly when every entry that has a name has a description: the
    description of a named entry is handed to [%s] as it is, null or
    not, and an entry without a name is not printed at all. *)
Theorem X20_help_text_defined parser :
  (∀ h, h ∈ arg_parser_print_help parser → help_text h ≠ None) ↔
  (∀ a, a ∈ args parser → ¬ nameless a → description a ≠ None).
Proof.
  unfold arg_parser_print_help.
  assert (Hline : ∀ a h, help_line a = Some h →
            (help_text h ≠ None ↔ description a ≠ None)).
  { intros a h. unfold help_line.
    destruct (short_name a), (long_name a); intros [= <-]; simpl;
      by destruct (description a). }
  induction (args parser) as [|a l IH].
  - split.
    + by intros _ a ?%elem_of_nil.
    + intros _ h [->|?%elem_of_nil]%elem_of_cons; done.
  - simpl. destruct (help_line a) as [ha|] eqn:Ha.
    + split.
      * intros H b [->|Hb]%elem_of_cons Hn.
        -- apply (Hline _ _ Ha). apply H. right. left.
        -- apply IH; [|done..]. intros h [->|Hh]%elem_of_cons; [done|].
           apply H. right. by right.
      * intros H h [->|[->|Hh]%elem_of_cons]%elem_of_cons; [done| |].
        -- apply (Hline _ _ Ha). apply H; [left|].
           intros Hn%help_line_None. congruence.
        -- apply (proj2 IH); [|by right].
           intros b Hb. apply H. by right.
    + rewrite IH. split.
      * intros H b [->|Hb]%elem_of_cons Hn; [|by apply H].
        by apply help_line_None in Ha.
      * intros H b Hb. apply H. by right.
Qed.
